(** * Video assembly pipeline: sticker overlay plugin, frame compositor,
      encoder bridge and batch orchestrator.

    Shallow embedding of [Effect Bulk/subscribe_effect.py] and [editit.py].

    Conventions.
    - A numpy image of shape (H, W, C) is a list of rows, a row a list of
      pixels, a pixel its list of channel values (uint8, kept in [Z]).
    - Python floats that only hold quotients of small integers
      ([frame_idx / fps], [alpha / 255.0], [duration * fps]) are kept as
      exact rationals [Q].  The two comparisons of the time window are against
      1.0 and 5.0; for frame rates below 2^50 the rounded quotient lies on
      the same side of those constants as the exact one, so the check below
      decides exactly as the float code does.
    - [random.choice] takes its draw as an explicit argument [r]; the chosen
      element is the one at index [r mod len].  Quantifying over [r] covers
      every outcome of the generator.  The dictionary [ALL_GIFS] is a finite
      map; its keys are listed in the map's own order instead of insertion
      order, which only renames the draws.
    - Code that raises returns an explicit error value. *)

From Stdlib Require Import QArith Qround.
From stdpp Require Import gmap strings list fin_maps sorting.

#[local] Set Warnings "-clear-no-such-hyp".

Local Open Scope Z_scope.

(* ================================================================== *)
(** ** Images *)
(* ================================================================== *)

(** A frame pixel: channel values, B G R first. *)
Abbreviation pixel := (list Z).

(** A video frame, [frame.shape = (H, W, C)]. *)
Abbreviation frame := (list (list pixel)).

(** A pixel of a pre-scaled sticker frame.  [load_gifs] converts every GIF
    frame to BGRA before storing it, so the four channels always exist. *)
Record bgra := BGRA { ov_b : Z; ov_g : Z; ov_r : Z; ov_a : Z }.

Abbreviation overlay := (list (list bgra)).

(** An animated sticker: the list of its frames. *)
Abbreviation gif := (list overlay).

#[global] Instance bgra_eq_dec : EqDecision bgra.
Proof. solve_decision. Defined.

Definition shape0 {A} (img : list (list A)) : nat := length img.
Definition shape1 {A} (img : list (list A)) : nat := length (hd [] img).
Definition shape2 (f : frame) : nat := length (hd [] (hd [] f)).

(** [overlay[:, :, c]] for [c] in 0..3. *)
Definition ov_chan (c : nat) (p : bgra) : Z :=
  match c with
  | O => ov_b p
  | 1%nat => ov_g p
  | 2%nat => ov_r p
  | _ => ov_a p
  end.

(** What a call leaves behind: it returned a frame, or it raised and the
    buffer it was handed holds [buf] at that moment. *)
Inductive outcome :=
  | Returned (f : frame)
  | Raised (buf : frame).

(* ================================================================== *)
(** ** Alpha overlay helper ([overlay_transparent]) *)
(* ================================================================== *)

(** [alpha * overlay + (1 - alpha) * background] with [alpha = a / 255.0],
    stored back into a uint8 array (the cast drops the fraction).  This is
    the exact value; the float sum can fall just short of an integer the
    exact sum reaches, and the stored value is then one less (for [a = 5],
    [o = 3], [b = 3] the code stores 2).  At [a = 0] and [a = 255] the
    float code and the exact value agree, and no statement below uses the
    blended value anywhere else. *)
Definition blend (a o b : Z) : Z :=
  let alpha := (inject_Z a / 255)%Q in
  Qfloor (alpha * inject_Z o + (1 - alpha) * inject_Z b)%Q.

Definition in_rect (x y w h r c : nat) : bool :=
  ((y <=? r) && (r <? y + h) && (x <=? c) && (c <? x + w))%nat.

Definition ov_at (ov : overlay) (i j : nat) : option bgra :=
  ov !! i ≫= (.!! j).

(** [background[y:y+h, x:x+w, c] = alpha*overlay[:,:,c] + (1-alpha)*...]
    for one channel [c]; the rectangle is inside the frame when this runs. *)
Definition write_channel (bg : frame) (ov : overlay) (x y c : nat) : frame :=
  let h := shape0 ov in
  let w := shape1 ov in
  imap (fun r row =>
    imap (fun cc (px : pixel) =>
      if in_rect x y w h r cc then
        match ov_at ov (r - y) (cc - x) with
        | Some o => alter (blend (ov_a o) (ov_chan c o)) c px
        | None => px
        end
      else px) row) bg.

(** [for c in range(3): ...]; indexing a channel the frame does not have
    raises IndexError, after the earlier channels were written. *)
Fixpoint blend_channels (cs : list nat) (bg : frame) (ov : overlay)
    (x y : nat) : outcome :=
  match cs with
  | [] => Returned bg
  | c :: cs' =>
      if (c <? shape2 bg)%nat
      then blend_channels cs' (write_channel bg ov x y c) ov x y
      else Raised bg
  end.

(** The helper mutates [background] in place and returns nothing; the
    outcome carries the buffer as the call leaves it. *)
Definition overlay_transparent (background : frame) (ov : overlay)
    (x y : Z) : outcome :=
  let h := Z.of_nat (shape0 ov) in
  let w := Z.of_nat (shape1 ov) in
  if (Z.of_nat (shape0 background) <? y + h)
     || (Z.of_nat (shape1 background) <? x + w)
     || (y <? 0) || (x <? 0)
  then Returned background
  else blend_channels [0; 1; 2]%nat background ov (Z.to_nat x) (Z.to_nat y).

(* ================================================================== *)
(** ** Usage ledger and its file ([load_usage], [save_usage]) *)
(* ================================================================== *)

(** The dictionary [USAGE_DATA].  A key missing from the JSON object reads
    as the empty list or map: every access goes through [.get(key, [])],
    [.get(key, {})] or [setdefault]. *)
Record usage := Usage {
  used : list string;
  video_map : gmap string string
}.

(** What is on disk at [USAGE_FILE]. *)
Inductive usage_file :=
  | Missing
  | Unreadable
  | Holds (u : usage).

(** How one [save_usage] call ends: the dump is written, [open] fails and
    the old file stays, or the write breaks after the file was truncated.
    Both failures only print a warning. *)
Inductive save_result :=
  | Written
  | OpenFailed
  | Torn.

Definition fresh_usage : usage := Usage [] ∅.

Definition load_usage (f : usage_file) : usage :=
  match f with
  | Holds u => u
  | Missing | Unreadable => fresh_usage
  end.

Definition save_usage (io : save_result) (data : usage) (f : usage_file)
    : usage_file :=
  match io with
  | Written => Holds data
  | OpenFailed => f
  | Torn => Unreadable
  end.

(** Module state of the sticker plugin: the in-memory ledger and the file. *)
Record ledger := Ledger {
  USAGE_DATA : usage;
  USAGE_FILE : usage_file
}.

(** A process start: [USAGE_DATA = load_usage()]. *)
Definition restart (f : usage_file) : ledger := Ledger (load_usage f) f.

(* ================================================================== *)
(** ** Fair sticker selection ([pick_gif_for_video]) *)
(* ================================================================== *)

(** [random.choice(seq)] with draw [r]; [None] is the IndexError on an
    empty sequence. *)
Definition random_choice {A} (r : nat) (l : list A) : option A :=
  l !! (r mod length l)%nat.

(** [list(ALL_GIFS.keys())] and [list(ALL_GIFS.values())]. *)
Definition gif_names (ALL_GIFS : gmap string gif) : list string :=
  (map_to_list ALL_GIFS).*1.

Definition gif_values (ALL_GIFS : gmap string gif) : list gif :=
  (map_to_list ALL_GIFS).*2.

(** [len(set(used))]. *)
Definition used_count (u : list string) : nat :=
  size (list_to_set u : gset string).

Definition available_names (all_names u : list string) : list string :=
  let avail := filter (fun n => n ∉ u) all_names in
  match avail with
  | [] => all_names
  | _ => avail
  end.

(** One call.  Returns the sticker frames ([[]] when nothing is loaded) and
    the ledger afterwards.  In the bound branch the default of [.get] is
    evaluated first, so a draw is made there too and is used exactly when
    the bound name is no longer loaded. *)
Definition pick_gif_for_video (ALL_GIFS : gmap string gif) (r : nat)
    (io : save_result) (video_id : string) (st : ledger) : gif * ledger :=
  let data := USAGE_DATA st in
  match video_map data !! video_id with
  | Some name =>
      let fallback := default [] (random_choice r (gif_values ALL_GIFS)) in
      (default fallback (ALL_GIFS !! name), st)
  | None =>
      let all_names := gif_names ALL_GIFS in
      match all_names with
      | [] => ([], st)
      | _ =>
          let u :=
            if (length all_names <=? used_count (used data))%nat
            then [] else used data in
          match random_choice r (available_names all_names u) with
          | None => ([], Ledger (Usage u (video_map data)) (USAGE_FILE st))
          | Some chosen_name =>
              let data' :=
                Usage (u ++ [chosen_name])
                      (<[video_id := chosen_name]> (video_map data)) in
              (default [] (ALL_GIFS !! chosen_name),
               Ledger data' (save_usage io data' (USAGE_FILE st)))
          end
      end
  end.

(** The name a job identity is bound to. *)
Definition bound_name (st : ledger) (video_id : string) : option string :=
  video_map (USAGE_DATA st) !! video_id.

(** A run of calls, each with its job identity, draw and save result.  For
    every call: the name the identity is bound to once the call is over,
    and the frames the call returned; then the final ledger. *)
Fixpoint pick_all (ALL_GIFS : gmap string gif)
    (calls : list (string * nat * save_result)) (st : ledger)
    : list (option string * gif) * ledger :=
  match calls with
  | [] => ([], st)
  | (video_id, r, io) :: rest =>
      let '(g, st1) := pick_gif_for_video ALL_GIFS r io video_id st in
      let '(gs, st2) := pick_all ALL_GIFS rest st1 in
      ((bound_name st1 video_id, g) :: gs, st2)
  end.

(** The names chosen along a run, in call order. *)
Definition chosen_names (results : list (option string * gif))
    : list string :=
  omap fst results.

(** The in-memory ledger is what the file holds. *)
Definition persisted (st : ledger) : Prop :=
  USAGE_FILE st = Holds (USAGE_DATA st).

(* ================================================================== *)
(** ** The sticker plugin ([apply_effect_frame]) *)
(* ================================================================== *)

Definition start_sec : Q := 1.
Definition duration_sec : Q := 5.
Definition pad : Z := 12.

(** [frame_idx / fps]; the caller rules out [fps = 0]. *)
Definition current_sec (frame_idx fps : Z) : Q :=
  (inject_Z frame_idx / inject_Z fps)%Q.

(** The time window and the choice of the sticker frame: [None] when the
    plugin returns early, otherwise the index into [gif_frames].  [int()]
    of a value that is not negative is its floor. *)
Definition gif_idx (frame_idx fps : Z) (total_gif_frames : nat) : option nat :=
  let t := current_sec frame_idx fps in
  if Qlt_le_dec t start_sec then None
  else
    let elapsed_in_effect := (t - start_sec)%Q in
    if Qlt_le_dec duration_sec elapsed_in_effect then None
    else
      let n := Z.of_nat total_gif_frames in
      Some (Z.to_nat
        (Qfloor ((elapsed_in_effect / duration_sec) * inject_Z n)%Q mod n)).

(** Bottom-right position of an overlay in a frame. *)
Definition place (f : frame) (ov : overlay) : Z * Z :=
  (Z.of_nat (shape1 f) - Z.of_nat (shape1 ov) - pad,
   Z.of_nat (shape0 f) - Z.of_nat (shape0 ov) - pad).

(** One call of the plugin.  The division raises ZeroDivisionError for
    [fps = 0], after the selection already ran. *)
Definition apply_effect_frame (ALL_GIFS : gmap string gif) (r : nat)
    (io : save_result) (f : frame) (frame_idx fps : Z) (video_id : string)
    (st : ledger) : outcome * ledger :=
  if decide (ALL_GIFS = ∅) then (Returned f, st)
  else
    let '(gif_frames, st') := pick_gif_for_video ALL_GIFS r io video_id st in
    match gif_frames with
    | [] => (Returned f, st')
    | _ =>
        if fps =? 0 then (Raised f, st')
        else
          match gif_idx frame_idx fps (length gif_frames) with
          | None => (Returned f, st')
          | Some i =>
              match gif_frames !! i with
              | None => (Raised f, st')
              | Some ov =>
                  let '(x, y) := place f ov in
                  (overlay_transparent f ov x y, st')
              end
          end
    end.

(* ================================================================== *)
(** ** Frame compositor (the effect loop of [create_video]) *)
(* ================================================================== *)

(** The keyword arguments a plugin may ask for. *)
Record frame_context := FrameContext {
  ctx_frame_idx : nat;
  ctx_fps : Z;
  ctx_video_id : string;
  ctx_audio_name : string
}.

(** An effect is called with the working buffer itself, not a copy.  It may
    write into that buffer, keep state of its own (of type [St]), and either
    return a frame or raise; [Raised buf] records what it left in the buffer
    it was handed. *)
Definition effect (St : Type) : Type :=
  frame -> frame_context -> St -> outcome * St.

(** [for effect in effects_list: try: frame = effect(frame, **kwargs)
    except Exception: print(...)].  On an exception the variable [frame]
    keeps naming the buffer the effect was given.  The result carries the
    positions of the effects that raised (one log line each). *)
Fixpoint apply_effects {St} (effects : list (effect St)) (k : nat)
    (ctx : frame_context) (fr : frame) (s : St) : frame * St * list nat :=
  match effects with
  | [] => (fr, s, [])
  | e :: rest =>
      match e fr ctx s with
      | (Returned fr', s') => apply_effects rest (S k) ctx fr' s'
      | (Raised buf, s') =>
          let '(out, s'', log) := apply_effects rest (S k) ctx buf s' in
          (out, s'', k :: log)
      end
  end.

(** One output frame: [frame = img.copy()], then the effects in order. *)
Definition render_frame {St} (effects : list (effect St)) (img : frame)
    (ctx : frame_context) (s : St) : frame * St * list nat :=
  apply_effects effects 0 ctx img s.

(* ================================================================== *)
(** ** Encoder bridge ([create_video]) *)
(* ================================================================== *)

(** How [process.wait(timeout=30)] ends. *)
Inductive wait_outcome :=
  | Exited (returncode : Z)
  | TimedOut.

(** The behaviour of the encoder subprocess during one attempt. *)
Record encoder := Encoder {
  spawn_ok : bool;            (* Popen succeeds *)
  write_ok : nat -> bool;     (* stdin.write of frame i succeeds *)
  close_ok : bool;            (* stdin.close succeeds *)
  wait_result : wait_outcome
}.

(** What [create_video] does to the subprocess, in order: [Popen] is
    called, a frame is handed over, [stdin.close], [wait] and [kill] are
    called. *)
Inductive event :=
  | EvSpawn (captions : bool)
  | EvWrite (i : nat) (f : frame)
  | EvClose
  | EvWait
  | EvKill.

#[global] Instance event_eq_dec : EqDecision event.
Proof. solve_decision. Defined.

(** The result of ffprobe: the call or the parse failed, or a duration. *)
Inductive probe :=
  | ProbeFailed
  | Duration (seconds : Q).

(** [int(duration * fps)]: rounds toward zero. *)
Definition total_frames (duration : Q) (fps : Z) : Z :=
  let p := (duration * inject_Z fps)%Q in
  Z.quot (Qnum p) (Z.pos (Qden p)).

(** The frame loop.  [true] when every frame in [idxs] was written. *)
Fixpoint write_frames {St} (effects : list (effect St)) (enc : encoder)
    (img : frame) (fps : Z) (video_id audio_name : string)
    (idxs : list nat) (s : St) : bool * St * list event :=
  match idxs with
  | [] => (true, s, [])
  | i :: rest =>
      let ctx := FrameContext i fps video_id audio_name in
      let '(fr, s1, _) := render_frame effects img ctx s in
      if write_ok enc i then
        let '(ok, s2, evs) :=
          write_frames effects enc img fps video_id audio_name rest s1 in
        (ok, s2, EvWrite i fr :: evs)
      else (false, s1, [])
  end.

(** [create_video].  [img] is what [cv2.imread] gave, already brought to
    even width and height; [captions] tells whether a caption file was
    passed and exists.  Returns the boolean result, the plugin state and
    what was done to the subprocess. *)
Definition create_video {St} (effects : list (effect St)) (enc : encoder)
    (img : option frame) (audio : probe) (captions : bool) (fps : Z)
    (video_id audio_name : string) (s : St) : bool * St * list event :=
  match img with
  | None => (false, s, [])
  | Some base =>
      match audio with
      | ProbeFailed => (false, s, [])
      | Duration d =>
          let n := total_frames d fps in
          if n <=? 0 then (false, s, [])
          else if negb (spawn_ok enc) then (false, s, [EvSpawn captions])
          else
            let '(ok, s', evs) :=
              write_frames effects enc base fps video_id audio_name
                (seq 0 (Z.to_nat n)) s in
            let started := EvSpawn captions :: evs in
            if negb ok then (false, s', started ++ [EvKill])
            else if negb (close_ok enc)
            then (false, s', started ++ [EvClose; EvKill])
            else
              match wait_result enc with
              | TimedOut => (false, s', started ++ [EvClose; EvWait; EvKill])
              | Exited rc =>
                  if rc =? 0
                  then (true, s', started ++ [EvClose; EvWait])
                  else (false, s', started ++ [EvClose; EvWait])
              end
      end
  end.

(* ================================================================== *)
(** ** Batch orchestrator (the [__main__] loop, one pair) *)
(* ================================================================== *)

Definition MAX_EDIT_RETRIES : nat := 3.

(** How one [create_video] call ends for the orchestrator: it returned its
    boolean, or an exception escaped it. *)
Inductive render_result :=
  | Finished (ok : bool)
  | Crashed.

(** What the orchestrator does while it works on a pair. *)
Inductive step :=
  | Caption                 (* generate_srt is called *)
  | Render (attempt : nat)  (* create_video is called *)
  | Sleep.                  (* time.sleep(5) before the next attempt *)

#[global] Instance step_eq_dec : EqDecision step.
Proof. solve_decision. Defined.

(** The retry loop.  [left] is [MAX - attempt], the number of iterations
    [while attempt < MAX] still allows; [caption] is what [generate_srt]
    returns ([None] on failure: it catches its own exceptions) and
    [render k] how the [k]-th call of [create_video] ends.  Returns
    [video_success], [srt_file] and the steps taken. *)
Fixpoint retry_loop (caption : option string) (render : nat -> render_result)
    (left attempt : nat) (srt_file : option string)
    : bool * option string * list step :=
  match left with
  | O => (false, srt_file, [])
  | S left' =>
      let attempt := S attempt in
      let first := (attempt =? 1)%nat in
      let srt_file := if first then caption else srt_file in
      let pre := if first then [Caption] else [] in
      match first, srt_file with
      | true, None => (false, srt_file, pre)
      | _, _ =>
          match render attempt with
          | Finished true => (true, srt_file, pre ++ [Render attempt])
          | Finished false | Crashed =>
              let pause :=
                match left' with O => [] | S _ => [Sleep] end in
              let '(ok, srt, steps) :=
                retry_loop caption render left' attempt srt_file in
              (ok, srt, pre ++ [Render attempt] ++ pause ++ steps)
          end
      end
  end.

Definition process_pair (caption : option string)
    (render : nat -> render_result) : bool * option string * list step :=
  retry_loop caption render MAX_EDIT_RETRIES 0 None.

(** [os.remove]: deletes an existing file, raises for a missing one.  The
    file system is the set of paths that exist. *)
Definition os_remove (p : string) (fs : gset string) : option (gset string) :=
  if decide (p ∈ fs) then Some (fs ∖ {[p]}) else None.

(** The final cleanup after the loop: the caption file goes when it is
    known and exists; on success the audio and then the image are removed
    inside one [try], so a failing first removal skips the second. *)
Definition final_cleanup (fs : gset string) (srt_file : option string)
    (video_success : bool) (img_path aud_path : string) : gset string :=
  let fs1 :=
    match srt_file with
    | Some p => if decide (p ∈ fs) then fs ∖ {[p]} else fs
    | None => fs
    end in
  if video_success then
    match os_remove aud_path fs1 with
    | None => fs1
    | Some fs2 => default fs2 (os_remove img_path fs2)
    end
  else fs1.

(** The count of finished videos, reset once it reaches the interval. *)
Definition LOG_CLEANUP_INTERVAL : nat := 20.

Definition count_processed (processed_count : nat) (video_success : bool)
    : nat :=
  let n := if video_success then S processed_count else processed_count in
  if (LOG_CLEANUP_INTERVAL <=? n)%nat then O else n.

(* ================================================================== *)
(** * Properties *)
(* ================================================================== *)

(** The buffer a call leaves behind, however it ended. *)
Definition buffer_after (o : outcome) : frame :=
  match o with
  | Returned f => f
  | Raised buf => buf
  end.

(** [frame[r, c]], when the position exists. *)
Definition pixel_at (f : frame) (r c : nat) : option pixel :=
  f !! r ≫= (.!! c).

(** The shape of every row and pixel, not only of the first ones. *)
Definition same_dims (f g : frame) : Prop :=
  length f = length g ∧
  (∀ r, length <$> f !! r = length <$> g !! r) ∧
  (∀ r c, length <$> pixel_at f r c = length <$> pixel_at g r c).

(** ** The alpha overlay helper *)

Section overlay_facts.
Implicit Types (bg : frame) (ov : overlay) (x y c r cc : nat).

Lemma pixel_at_write_channel bg ov x y c r cc :
  pixel_at (write_channel bg ov x y c) r cc =
  (fun px : pixel =>
     if in_rect x y (shape1 ov) (shape0 ov) r cc then
       match ov_at ov (r - y) (cc - x) with
       | Some o => alter (blend (ov_a o) (ov_chan c o)) c px
       | None => px
       end
     else px) <$> pixel_at bg r cc.
Proof.
  unfold pixel_at, write_channel. cbv zeta.
  rewrite list_lookup_imap.
  destruct (bg !! r) as [row|]; [|done].
  simpl. by rewrite list_lookup_imap.
Qed.

Lemma write_channel_outside bg ov x y c r cc :
  in_rect x y (shape1 ov) (shape0 ov) r cc = false →
  pixel_at (write_channel bg ov x y c) r cc = pixel_at bg r cc.
Proof.
  intros Hout. rewrite pixel_at_write_channel, Hout.
  by destruct (pixel_at bg r cc).
Qed.

Lemma write_channel_other_channel bg ov x y c r cc k :
  c ≠ k →
  (.!! k) <$> pixel_at (write_channel bg ov x y c) r cc =
  (.!! k) <$> pixel_at bg r cc.
Proof.
  intros Hne. rewrite pixel_at_write_channel.
  destruct (pixel_at bg r cc) as [px|]; simpl; [|done].
  destruct (in_rect _ _ _ _ _ _); [|done].
  destruct (ov_at _ _ _); [|done].
  by rewrite list_lookup_alter_ne.
Qed.

Lemma write_channel_length bg ov x y c :
  length (write_channel bg ov x y c) = length bg.
Proof. unfold write_channel. cbv zeta. by rewrite length_imap. Qed.

Lemma write_channel_row_length bg ov x y c r :
  length <$> write_channel bg ov x y c !! r = length <$> bg !! r.
Proof.
  unfold write_channel. cbv zeta. rewrite list_lookup_imap.
  destruct (bg !! r); simpl; [|done]. by rewrite length_imap.
Qed.

Lemma write_channel_pixel_length bg ov x y c r cc :
  length <$> pixel_at (write_channel bg ov x y c) r cc =
  length <$> pixel_at bg r cc.
Proof.
  rewrite pixel_at_write_channel.
  destruct (pixel_at bg r cc) as [px|]; simpl; [|done].
  destruct (in_rect _ _ _ _ _ _); [|done].
  destruct (ov_at _ _ _); [|done].
  by rewrite length_alter.
Qed.

Lemma write_channel_same_dims bg ov x y c :
  same_dims (write_channel bg ov x y c) bg.
Proof.
  split; [apply write_channel_length|].
  split; [apply write_channel_row_length|apply write_channel_pixel_length].
Qed.

Lemma same_dims_refl bg : same_dims bg bg.
Proof. by repeat split. Qed.

Lemma same_dims_trans (f g k : frame) :
  same_dims f g → same_dims g k → same_dims f k.
Proof.
  intros (H1 & H2 & H3) (H4 & H5 & H6).
  split; [congruence|]. split; intros; [rewrite H2|rewrite H3]; done.
Qed.

(** Every channel the loop goes over is below 3, so whatever the loop
    writes stays inside the rectangle and in channels 0, 1 and 2. *)
Lemma blend_channels_frame cs bg ov x y :
  Forall (fun c => c < 3)%nat cs →
  let out := buffer_after (blend_channels cs bg ov x y) in
  same_dims out bg ∧
  (∀ r cc, in_rect x y (shape1 ov) (shape0 ov) r cc = false →
           pixel_at out r cc = pixel_at bg r cc) ∧
  (∀ r cc k, (3 ≤ k)%nat →
             (.!! k) <$> pixel_at out r cc = (.!! k) <$> pixel_at bg r cc).
Proof.
  revert bg. induction cs as [|c cs IH]; intros bg Hcs; simpl.
  { split; [apply same_dims_refl|done]. }
  apply Forall_cons in Hcs as [Hc Hcs].
  destruct (c <? shape2 bg)%nat; simpl.
  - destruct (IH (write_channel bg ov x y c) Hcs) as (Hd & Hout & Hch).
    split; [|split].
    + eapply same_dims_trans; [exact Hd|apply write_channel_same_dims].
    + intros r cc Hr. rewrite Hout by done. by apply write_channel_outside.
    + intros r cc k Hk. rewrite Hch by done.
      apply write_channel_other_channel. lia.
  - split; [apply same_dims_refl|done].
Qed.
End overlay_facts.

Lemma in_rect_false_outside (x y : Z) (w h r c : nat) :
  0 ≤ x → 0 ≤ y →
  ¬ (y ≤ Z.of_nat r < y + Z.of_nat h ∧ x ≤ Z.of_nat c < x + Z.of_nat w) →
  in_rect (Z.to_nat x) (Z.to_nat y) w h r c = false.
Proof.
  intros Hx Hy Hout. unfold in_rect.
  apply not_true_is_false. intros Hin. apply Hout.
  repeat (apply andb_prop in Hin as [Hin ?]).
  repeat match goal with
  | H : (_ <=? _)%nat = true |- _ => apply Nat.leb_le in H
  | H : (_ <? _)%nat = true |- _ => apply Nat.ltb_lt in H
  end.
  lia.
Qed.

(** C10.  Whatever [overlay_transparent] does to a frame for an overlay of
    [h] rows and [w] columns placed at [(x, y)], the frame keeps its
    dimensions, every pixel outside rows [y, y+h) and columns [x, x+w) is
    what it was, and so is every channel beyond the first three of every
    pixel.  This holds for every position, in bounds or not, and also when
    the call ends early on a frame with fewer than three channels. *)
Theorem overlay_transparent_region (bg : frame) (ov : overlay) (x y : Z) :
  let out := buffer_after (overlay_transparent bg ov x y) in
  same_dims out bg ∧
  (∀ r c : nat,
     ¬ (y ≤ Z.of_nat r < y + Z.of_nat (shape0 ov) ∧
        x ≤ Z.of_nat c < x + Z.of_nat (shape1 ov)) →
     pixel_at out r c = pixel_at bg r c) ∧
  (∀ r c k : nat, (3 ≤ k)%nat →
     (.!! k) <$> pixel_at out r c = (.!! k) <$> pixel_at bg r c).
Proof.
  unfold overlay_transparent.
  destruct (_ || _ || _ || _) eqn:Hchk; simpl.
  { split; [apply same_dims_refl|done]. }
  repeat (apply orb_false_elim in Hchk as [Hchk ?]).
  assert (0 ≤ x ∧ 0 ≤ y) as [Hx Hy] by lia.
  pose proof (blend_channels_frame [0; 1; 2]%nat bg ov
                (Z.to_nat x) (Z.to_nat y)) as Hloop.
  destruct Hloop as (Hd & Hout & Hch).
  { repeat constructor. }
  split; [exact Hd|]. split; [|exact Hch].
  intros r c Hrc. apply Hout. by apply in_rect_false_outside.
Qed.

(** The region itself is written: an opaque sticker pixel replaces the
    colour channels of the frame pixel under it. *)
Example overlay_transparent_opaque :
  overlay_transparent
    [[[1; 2; 3]; [4; 5; 6]]; [[7; 8; 9]; [10; 11; 12]]]
    [[BGRA 200 100 50 255]] 1 1
  = Returned [[[1; 2; 3]; [4; 5; 6]]; [[7; 8; 9]; [200; 100; 50]]].
Proof. vm_compute. reflexivity. Qed.

(** A fully transparent sticker pixel leaves the pixel under it, and a
    fourth channel of the frame is never written. *)
Example overlay_transparent_clear :
  overlay_transparent [[[0; 255; 10; 77]]] [[BGRA 255 0 20 0]] 0 0
  = Returned [[[0; 255; 10; 77]]]
  ∧ overlay_transparent [[[0; 255; 10; 77]]] [[BGRA 255 0 20 255]] 0 0
  = Returned [[[255; 0; 20; 77]]].
Proof. vm_compute. done. Qed.

(** A frame with two channels: the third write raises, the first two
    channels are already blended. *)
Example overlay_transparent_two_channels :
  overlay_transparent [[[0; 0]]] [[BGRA 9 8 7 255]] 0 0
  = Raised [[[9; 8]]].
Proof. vm_compute. reflexivity. Qed.

(** ** Fair selection *)

Section selection_facts.
Variable ALL_GIFS : gmap string gif.
Implicit Types (st : ledger) (u : list string) (r : nat)
  (io : save_result) (video_id : string).

Lemma gif_names_NoDup : NoDup (gif_names ALL_GIFS).
Proof. apply NoDup_fst_map_to_list. Qed.

Lemma elem_of_gif_names n :
  n ∈ gif_names ALL_GIFS ↔ is_Some (ALL_GIFS !! n).
Proof.
  unfold gif_names. rewrite list_elem_of_fmap. split.
  - intros ([k g] & -> & Hin). apply elem_of_map_to_list in Hin. by eexists.
  - intros [g Hg]. exists (n, g). split; [done|].
    by apply elem_of_map_to_list.
Qed.

Lemma gif_names_length : length (gif_names ALL_GIFS) = size ALL_GIFS.
Proof. unfold gif_names. by rewrite length_fmap, length_map_to_list. Qed.

Lemma gif_names_nil : gif_names ALL_GIFS = [] ↔ ALL_GIFS = ∅.
Proof.
  unfold gif_names. rewrite <- map_to_list_empty_iff. split.
  - apply fmap_nil_inv.
  - by intros ->.
Qed.

Lemma random_choice_elem {A} r (l : list A) x :
  random_choice r l = Some x → x ∈ l.
Proof. unfold random_choice. apply list_elem_of_lookup_2. Qed.

Lemma random_choice_is_Some {A} r (l : list A) :
  l ≠ [] → is_Some (random_choice r l).
Proof.
  intros Hl. unfold random_choice. apply lookup_lt_is_Some.
  apply Nat.mod_upper_bound. by destruct l.
Qed.

Lemma available_names_nonempty all_names u :
  all_names ≠ [] → available_names all_names u ≠ [].
Proof.
  unfold available_names. by destruct (filter _ all_names).
Qed.

Lemma available_names_elem all_names u n :
  n ∈ available_names all_names u → n ∈ all_names.
Proof.
  unfold available_names.
  destruct (filter _ all_names) as [|a l] eqn:Hf; [done|].
  rewrite <- Hf. intros Hn. by apply list_elem_of_filter in Hn as [_ ?].
Qed.

(** While some name is unused, only unused names are on offer. *)
Lemma available_names_fresh all_names u n :
  NoDup u → (∀ m, m ∈ u → m ∈ all_names) → NoDup all_names →
  (length u < length all_names)%nat →
  n ∈ available_names all_names u → n ∉ u.
Proof.
  intros Hu Hsub Hall Hlt. unfold available_names.
  destruct (filter _ all_names) as [|a l] eqn:Hf.
  - exfalso.
    assert (∀ m, m ∈ all_names → m ∈ u) as Hcov.
    { intros m Hm. destruct (decide (m ∈ u)) as [|Hno]; [done|].
      assert (m ∈ filter (λ n0, n0 ∉ u) all_names) as Hin
        by by apply list_elem_of_filter.
      rewrite Hf in Hin. by apply elem_of_nil in Hin. }
    pose proof (submseteq_length _ _ (NoDup_submseteq _ _ Hall Hcov)). lia.
  - rewrite <- Hf. intros Hn. by apply list_elem_of_filter in Hn as [? _].
Qed.

Lemma used_count_NoDup u : NoDup u → used_count u = length u.
Proof. intros Hu. unfold used_count. by apply size_list_to_set. Qed.

(** A used list that is consistent with the loaded stickers: no name
    twice, every name loaded. *)
Definition used_ok u : Prop :=
  NoDup u ∧ ∀ n, n ∈ u → n ∈ gif_names ALL_GIFS.

Lemma used_ok_length u :
  used_ok u → (length u ≤ size ALL_GIFS)%nat.
Proof.
  intros [Hu Hsub]. rewrite <- gif_names_length.
  apply submseteq_length. by apply NoDup_submseteq.
Qed.

(** A call for a bound identity leaves the ledger alone. *)
Lemma pick_bound r io video_id st n :
  bound_name st video_id = Some n →
  pick_gif_for_video ALL_GIFS r io video_id st =
  (default (default [] (random_choice r (gif_values ALL_GIFS)))
           (ALL_GIFS !! n), st).
Proof. unfold bound_name, pick_gif_for_video. by intros ->. Qed.

Lemma pick_no_gifs r io video_id st :
  ALL_GIFS = ∅ → bound_name st video_id = None →
  pick_gif_for_video ALL_GIFS r io video_id st = ([], st).
Proof.
  intros HG Hv. unfold bound_name in Hv. unfold pick_gif_for_video.
  rewrite Hv. apply gif_names_nil in HG. by rewrite HG.
Qed.

(** A call for an unbound identity: the cycle restarts when the used
    names are at least as many as the loaded ones, one offered name is
    chosen, recorded, bound and saved, and its frames are returned. *)
Lemma pick_unbound r io video_id st :
  ALL_GIFS ≠ ∅ → bound_name st video_id = None →
  let data := USAGE_DATA st in
  let u := if (size ALL_GIFS <=? used_count (used data))%nat
           then [] else used data in
  ∃ chosen g,
    chosen ∈ available_names (gif_names ALL_GIFS) u ∧
    ALL_GIFS !! chosen = Some g ∧
    pick_gif_for_video ALL_GIFS r io video_id st =
    (g, Ledger (Usage (u ++ [chosen])
                      (<[video_id := chosen]> (video_map data)))
               (save_usage io
                  (Usage (u ++ [chosen])
                         (<[video_id := chosen]> (video_map data)))
                  (USAGE_FILE st))).
Proof.
  intros HG Hv. unfold bound_name in Hv. cbv zeta.
  unfold pick_gif_for_video. rewrite Hv.
  assert (gif_names ALL_GIFS ≠ []) as Hne by by rewrite gif_names_nil.
  destruct (gif_names ALL_GIFS) as [|a l] eqn:Hnames; [done|].
  rewrite <- Hnames, gif_names_length.
  set (u := if (size ALL_GIFS <=? _)%nat then [] else _).
  destruct (random_choice_is_Some r (available_names (gif_names ALL_GIFS) u))
    as [chosen Hc].
  { apply available_names_nonempty. by rewrite Hnames. }
  rewrite Hc. pose proof (random_choice_elem _ _ _ Hc) as Hin.
  pose proof (available_names_elem _ _ _ Hin) as Hall.
  apply elem_of_gif_names in Hall as [g Hg].
  exists chosen, g. by rewrite Hg.
Qed.
End selection_facts.

(** The [k]-th cycle of a sequence of choices over [n] stickers. *)
Definition cycle (n k : nat) (l : list string) : list string :=
  take n (drop (k * n) l).

(** The part of a sequence of choices that lies in its last cycle. *)
Definition last_cycle (n : nat) (l : list string) : list string :=
  drop (n * ((length l - 1) / n)) l.

Section fairness.
Variable ALL_GIFS : gmap string gif.
Hypothesis loaded : ALL_GIFS ≠ ∅.

Local Abbreviation N := (size ALL_GIFS).

Lemma N_pos : (0 < N)%nat.
Proof.
  destruct (size ALL_GIFS) eqn:Hs; [|lia].
  by apply map_size_empty_iff in Hs.
Qed.

Lemma cycle_short k (l : list string) :
  (length l ≤ N)%nat →
  cycle N k l = match k with O => l | S _ => [] end.
Proof.
  intros Hl. unfold cycle. destruct k as [|k].
  - by rewrite Nat.mul_0_l, drop_0, take_ge.
  - rewrite drop_ge; [by rewrite take_nil|]. lia.
Qed.

Lemma cycle_app_full k (u l : list string) :
  length u = N →
  cycle N k (u ++ l) = match k with O => u | S k' => cycle N k' l end.
Proof.
  intros Hu. unfold cycle. destruct k as [|k].
  - by rewrite Nat.mul_0_l, drop_0, take_app_length'.
  - rewrite drop_app_ge by lia. do 2 f_equal. lia.
Qed.

Lemma last_cycle_short (l : list string) :
  (length l ≤ N)%nat → last_cycle N l = l.
Proof.
  intros Hl. unfold last_cycle. pose proof N_pos.
  rewrite Nat.div_small by lia. by rewrite Nat.mul_0_r.
Qed.

Lemma last_cycle_app_full (u l : list string) :
  length u = N → l ≠ [] →
  last_cycle N (u ++ l) = last_cycle N l.
Proof.
  intros Hu Hl. unfold last_cycle. pose proof N_pos.
  assert (0 < length l)%nat by (destruct l; [done|simpl; lia]).
  rewrite length_app, Hu.
  replace (N + length l - 1)%nat with (1 * N + (length l - 1))%nat by lia.
  rewrite Nat.div_add_l by lia.
  rewrite drop_app_ge by lia. f_equal. lia.
Qed.

(** The invariant of a run of calls for unbound, pairwise different
    identities, from a consistent used list: the names used before,
    followed by the names the run chooses, fall into cycles without
    repetition, and the used list at the end is the last of them. *)
Lemma pick_all_cycles calls :
  ∀ st,
    NoDup calls.*1.*1 →
    (∀ v, v ∈ calls.*1.*1 → bound_name st v = None) →
    used_ok ALL_GIFS (used (USAGE_DATA st)) →
    let names := chosen_names (pick_all ALL_GIFS calls st).1 in
    let st' := (pick_all ALL_GIFS calls st).2 in
    let full := used (USAGE_DATA st) ++ names in
    length names = length calls ∧
    used_ok ALL_GIFS (used (USAGE_DATA st')) ∧
    (∀ k, used_ok ALL_GIFS (cycle N k full)) ∧
    used (USAGE_DATA st') = last_cycle N full.
Proof.
  induction calls as [|[[v r] io] calls IH]; intros st Hids Hfree Hok.
  { simpl. rewrite app_nil_r. pose proof (used_ok_length _ _ Hok).
    split; [done|]. split; [done|]. split.
    - intros k. rewrite cycle_short by done.
      destruct k; [done|]. split; [constructor|]. by intros n ?%elem_of_nil.
    - by rewrite last_cycle_short. }
  cbn [fmap list_fmap fst] in Hids, Hfree.
  apply NoDup_cons in Hids as [Hv Hids].
  destruct (pick_unbound ALL_GIFS r io v st loaded) as (c & g & Hc & Hg & Hpick).
  { apply Hfree. left. }
  cbv zeta. cbn [pick_all]. rewrite Hpick.
  set (u := if (size ALL_GIFS <=? _)%nat then [] else _) in *.
  set (st1 := Ledger _ _).
  specialize (IH st1 Hids).
  destruct (pick_all ALL_GIFS calls st1) as [res st2] eqn:Hrun.
  assert (bound_name st1 v = Some c) as Hb.
  { unfold bound_name, st1. simpl. apply lookup_insert_eq. }
  rewrite Hb. unfold chosen_names. cbn [omap list_omap fst snd].
  fold (chosen_names res).
  pose proof (available_names_elem _ _ _ Hc) as Hcall.
  pose proof (used_ok_length _ _ Hok) as Hlen.
  assert (used_ok ALL_GIFS (u ++ [c]) ∧
          (u = used (USAGE_DATA st) ∨
           (u = [] ∧ length (used (USAGE_DATA st)) = N))) as [Hok1 Hcase].
  { destruct Hok as [Hnd Hsub]. subst u.
    rewrite (used_count_NoDup _ Hnd) in *.
    destruct (N <=? length (used (USAGE_DATA st)))%nat eqn:Hfull.
    - apply Nat.leb_le in Hfull. split; [|right; split; [done|lia]].
      split; [apply NoDup_singleton|].
      intros n ->%list_elem_of_singleton. done.
    - apply Nat.leb_gt in Hfull. split; [|by left].
      split.
      + apply NoDup_app. split; [done|]. split; [|apply NoDup_singleton].
        intros n Hn ->%list_elem_of_singleton.
        eapply available_names_fresh; [exact Hnd|exact Hsub| | |exact Hc|exact Hn].
        * apply gif_names_NoDup.
        * rewrite gif_names_length. lia.
      + intros n [Hn| ->%list_elem_of_singleton]%elem_of_app; auto. }
  destruct IH as (Hl & Hok2 & Hcyc & Hlast).
  { intros w Hw. unfold bound_name, st1. simpl.
    rewrite lookup_insert_ne by (intros ->; done).
    apply Hfree. by right. }
  { exact Hok1. }
  simpl in Hl, Hok2, Hcyc, Hlast.
  split; [simpl; by rewrite Hl|]. split; [exact Hok2|].
  destruct Hcase as [Hu|[Hu HN]].
  - rewrite Hu in Hcyc, Hlast.
    rewrite <- app_assoc in Hcyc, Hlast. by split.
  - rewrite Hu in Hcyc, Hlast. simpl in Hcyc, Hlast. split.
    + intros k. rewrite cycle_app_full by done.
      destruct k; [done|apply Hcyc].
    + by rewrite last_cycle_app_full.
Qed.
End fairness.

Lemma pick_all_no_gifs calls :
  ∀ st, (∀ v, v ∈ calls.*1.*1 → bound_name st v = None) →
        chosen_names (pick_all ∅ calls st).1 = [] ∧
        (pick_all ∅ calls st).2 = st.
Proof.
  induction calls as [|[[v r] io] calls IH]; intros st Hfree; [done|].
  cbn [pick_all]. rewrite pick_no_gifs; [|done|apply Hfree; left].
  destruct (IH st) as [Hn Hs].
  { intros w Hw. apply Hfree. by right. }
  destruct (pick_all ∅ calls st) as [res st2].
  rewrite (Hfree v) by left. simpl in *. done.
Qed.

(** C1, as the code has it.  Take a ledger whose used list has no name
    twice and names loaded stickers only (the ledger [load_usage] gives
    without a file is one, and every call keeps the property), and call
    [pick_gif_for_video] for pairwise different job identities that are
    not bound yet, with any draws of the random generator and any outcome
    of the saves.  With [N] stickers loaded: every call chooses a name;
    the names already used followed by the names chosen, cut into cycles
    of [N], never repeat inside a cycle, and a complete cycle is a
    permutation of the loaded names; the used list at the end is exactly
    the last cycle, so it is emptied only by the call that follows a
    complete cycle. *)
Theorem pick_round_robin_consistent (ALL_GIFS : gmap string gif)
    (calls : list (string * nat * save_result)) (st : ledger) :
  used_ok ALL_GIFS (used (USAGE_DATA st)) →
  NoDup calls.*1.*1 →
  (∀ v, v ∈ calls.*1.*1 → bound_name st v = None) →
  let run := pick_all ALL_GIFS calls st in
  let names := chosen_names run.1 in
  let full := used (USAGE_DATA st) ++ names in
  let N := size ALL_GIFS in
  (ALL_GIFS ≠ ∅ → length names = length calls) ∧
  (∀ k, NoDup (cycle N k full)) ∧
  (∀ k, length (cycle N k full) = N →
        cycle N k full ≡ₚ gif_names ALL_GIFS) ∧
  used (USAGE_DATA run.2) = last_cycle N full.
Proof.
  intros Hok Hids Hfree. cbv zeta.
  destruct (decide (ALL_GIFS = ∅)) as [->|Hne].
  { destruct (pick_all_no_gifs calls st Hfree) as [Hn Hs].
    rewrite Hn, Hs.
    assert (used (USAGE_DATA st) = []) as Hu.
    { destruct Hok as [_ Hsub]. destruct (used (USAGE_DATA st)) as [|n u];
        [done|].
      specialize (Hsub n ltac:(left)). apply elem_of_gif_names in Hsub.
      rewrite lookup_empty in Hsub. by destruct Hsub. }
    rewrite Hu. unfold cycle, last_cycle. simpl.
    split; [done|]. split; [|split].
    - intros k. rewrite drop_nil, take_nil. constructor.
    - intros k _. by rewrite drop_nil, take_nil.
    - by rewrite drop_nil. }
  destruct (pick_all_cycles ALL_GIFS Hne calls st Hids Hfree Hok)
    as (Hlen & _ & Hcyc & Hlast).
  split; [done|]. split; [|split; [|done]].
  - intros k. apply Hcyc.
  - intros k Hk. destruct (Hcyc k) as [Hnd Hsub].
    apply submseteq_length_Permutation.
    + by apply NoDup_submseteq.
    + rewrite gif_names_length. lia.
Qed.

(** Three stickers, seven jobs: two complete cycles and the start of a
    third one.  The draws index the names in the order the map lists
    them. *)
Example pick_round_robin_run :
  let G : gmap string gif :=
    <["a.gif" := [[[BGRA 1 1 1 255]]]]>
      (<["b.gif" := [[[BGRA 2 2 2 255]]]]>
         (<["c.gif" := [[[BGRA 3 3 3 255]]]]> ∅)) in
  let calls :=
    [("v1", 4%nat, Written); ("v2", 1%nat, Written); ("v3", 7%nat, Torn);
     ("v4", 0%nat, Written); ("v5", 0%nat, OpenFailed);
     ("v6", 9%nat, Written); ("v7", 2%nat, Written)] in
  let run := pick_all G calls (restart Missing) in
  gif_names G = ["c.gif"; "a.gif"; "b.gif"]
  ∧ chosen_names run.1
    = ["a.gif"; "b.gif"; "c.gif"; "c.gif"; "a.gif"; "b.gif"; "b.gif"]
  ∧ used (USAGE_DATA run.2) = ["b.gif"].
Proof. vm_compute. done. Qed.

(** Two stickers for the worked cases below. *)
Definition two_gifs : gmap string gif :=
  <["a.gif" := [[[BGRA 1 1 1 255]]]]>
    (<["b.gif" := [[[BGRA 2 2 2 255]]]]> ∅).

Definition three_calls : list (string * nat * save_result) :=
  [("v1", 1%nat, Written); ("v2", 0%nat, Written); ("v3", 1%nat, Written)].

Lemma pick_round_robin_consistent_witness :
  used_ok two_gifs (used (USAGE_DATA (Ledger fresh_usage Missing))) ∧
  NoDup three_calls.*1.*1 ∧
  (∀ v, v ∈ three_calls.*1.*1 →
        bound_name (Ledger fresh_usage Missing) v = None) ∧
  cycle (size two_gifs) 0
    (used (USAGE_DATA (Ledger fresh_usage Missing)) ++
     chosen_names (pick_all two_gifs three_calls
                     (Ledger fresh_usage Missing)).1)
    ≡ₚ gif_names two_gifs.
Proof.
  assert (used_ok two_gifs (used (USAGE_DATA (Ledger fresh_usage Missing))))
    as Hok.
  { split; [constructor|]. by intros n ?%elem_of_nil. }
  assert (NoDup three_calls.*1.*1) as Hnd by compute_done.
  assert (∀ v, v ∈ three_calls.*1.*1 →
               bound_name (Ledger fresh_usage Missing) v = None) as Hfree.
  { intros v _. apply lookup_empty. }
  split; [exact Hok|]. split; [exact Hnd|]. split; [exact Hfree|].
  refine (proj1 (proj2 (proj2
    (pick_round_robin_consistent two_gifs three_calls
       (Ledger fresh_usage Missing) Hok Hnd Hfree))) 0%nat _).
  vm_compute. reflexivity.
Defined.

(** ** Stable bindings and repeated calls *)

Section binding_facts.
Variable ALL_GIFS : gmap string gif.

(** No call changes or removes an existing binding. *)
Lemma pick_keeps_bindings r io v st w n :
  bound_name st w = Some n →
  bound_name (pick_gif_for_video ALL_GIFS r io v st).2 w = Some n.
Proof.
  intros Hw. destruct (bound_name st v) as [m|] eqn:Hv.
  { by rewrite (pick_bound _ _ _ _ _ _ Hv). }
  destruct (decide (ALL_GIFS = ∅)) as [HG|HG].
  { by rewrite (pick_no_gifs _ _ _ _ _ HG Hv). }
  destruct (pick_unbound ALL_GIFS r io v st HG Hv) as (c & g & _ & _ & ->).
  unfold bound_name in *. simpl.
  rewrite lookup_insert_ne; [done|]. intros ->. congruence.
Qed.

Lemma pick_all_keeps_bindings calls :
  ∀ st w n,
    bound_name st w = Some n →
    bound_name (pick_all ALL_GIFS calls st).2 w = Some n.
Proof.
  induction calls as [|[[v r] io] calls IH]; intros st w n Hw; [done|].
  cbn [pick_all].
  pose proof (pick_keeps_bindings r io v st w n Hw) as H1.
  destruct (pick_gif_for_video ALL_GIFS r io v st) as [g st1].
  specialize (IH st1 w n H1).
  by destruct (pick_all ALL_GIFS calls st1) as [res st2].
Qed.

(** With nothing loaded the ledger never changes. *)
Lemma pick_state_no_gifs r io v st :
  ALL_GIFS = ∅ → (pick_gif_for_video ALL_GIFS r io v st).2 = st.
Proof.
  intros HG. destruct (bound_name st v) as [m|] eqn:Hv.
  - by rewrite (pick_bound _ _ _ _ _ _ Hv).
  - by rewrite (pick_no_gifs _ _ _ _ _ HG Hv).
Qed.

Lemma pick_all_state_no_gifs calls :
  ∀ st, ALL_GIFS = ∅ → (pick_all ALL_GIFS calls st).2 = st.
Proof.
  induction calls as [|[[v r] io] calls IH]; intros st HG; [done|].
  cbn [pick_all].
  pose proof (pick_state_no_gifs r io v st HG) as H1.
  destruct (pick_gif_for_video ALL_GIFS r io v st) as [g st1].
  simpl in H1. subst st1. specialize (IH st HG).
  by destruct (pick_all ALL_GIFS calls st) as [res st2].
Qed.

(** A process that starts from a ledger that was saved sees that ledger. *)
Lemma restart_persisted st : persisted st → restart (USAGE_FILE st) = st.
Proof.
  destruct st as [d f]. unfold persisted, restart. simpl. by intros ->.
Qed.

(** A successful save leaves the file in step with the ledger. *)
Lemma pick_persisted r v st :
  persisted st →
  persisted (pick_gif_for_video ALL_GIFS r Written v st).2.
Proof.
  intros Hp. destruct (bound_name st v) as [m|] eqn:Hv.
  { by rewrite (pick_bound _ _ _ _ _ _ Hv). }
  destruct (decide (ALL_GIFS = ∅)) as [HG|HG].
  { by rewrite (pick_no_gifs _ _ _ _ _ HG Hv). }
  destruct (pick_unbound ALL_GIFS r Written v st HG Hv)
    as (c & g & _ & _ & ->).
  reflexivity.
Qed.
End binding_facts.

(** C2, as the code has it.  Take a job identity that is unbound, or bound
    to a sticker that is loaded.  After a first call, any further calls
    (for any identities) and then a second call for the same identity: the
    second call returns the frames the first one returned and leaves the
    ledger as it found it.  No call ever changes an existing binding.  If
    the ledger was saved, a process restarted on the file with the same
    stickers loaded answers the same way. *)
Theorem pick_idempotent_loaded (ALL_GIFS : gmap string gif)
    (r1 r2 : nat) (io1 io2 : save_result) (v : string) (st : ledger)
    (calls : list (string * nat * save_result)) :
  (∀ n, bound_name st v = Some n → is_Some (ALL_GIFS !! n)) →
  let first := pick_gif_for_video ALL_GIFS r1 io1 v st in
  let st2 := (pick_all ALL_GIFS calls first.2).2 in
  pick_gif_for_video ALL_GIFS r2 io2 v st2 = (first.1, st2) ∧
  (∀ w n, bound_name st w = Some n → bound_name st2 w = Some n) ∧
  (persisted st2 →
   pick_gif_for_video ALL_GIFS r2 io2 v (restart (USAGE_FILE st2))
   = (first.1, st2)).
Proof.
  intros Hloaded. cbv zeta.
  set (first := pick_gif_for_video ALL_GIFS r1 io1 v st).
  set (st2 := (pick_all ALL_GIFS calls first.2).2).
  assert (pick_gif_for_video ALL_GIFS r2 io2 v st2 = (first.1, st2)) as Hsame.
  { subst st2 first. destruct (bound_name st v) as [n|] eqn:Hv.
    - destruct (Hloaded n eq_refl) as [g Hg].
      rewrite (pick_bound _ _ _ _ _ _ Hv), Hg. simpl.
      erewrite pick_bound by by apply pick_all_keeps_bindings.
      by rewrite Hg.
    - destruct (decide (ALL_GIFS = ∅)) as [HG|HG].
      + rewrite (pick_no_gifs _ _ _ _ _ HG Hv). simpl.
        rewrite pick_all_state_no_gifs by done.
        by apply pick_no_gifs.
      + destruct (pick_unbound ALL_GIFS r1 io1 v st HG Hv)
          as (c & g & _ & Hg & ->).
        simpl. erewrite pick_bound.
        * by rewrite Hg.
        * apply pick_all_keeps_bindings. apply lookup_insert_eq. }
  split; [exact Hsame|]. split.
  - intros w n Hw. subst st2 first.
    by apply pick_all_keeps_bindings, pick_keeps_bindings.
  - intros Hp. by rewrite restart_persisted.
Qed.

(** The sticker folder of an earlier run, and the ledger that run saved
    after serving job ["v"]. *)
Definition old_gifs : gmap string gif :=
  <["gone.gif" := [[[BGRA 7 7 7 255]]]]> ∅.

Definition saved_by_old_run : ledger :=
  (pick_gif_for_video old_gifs 0 Written "v" (restart Missing)).2.

(** C2 fails as stated.  An earlier run with only [gone.gif] loaded binds
    job ["v"] to it and saves the ledger.  The process restarts with that
    file, now with [a.gif] and [b.gif] loaded and [gone.gif] no longer
    there.  The binding is still in the ledger, but the two calls for
    ["v"] fall back to a random sticker each and return different frames
    (draws 0 and 1), neither of them the frames served before. *)
Lemma pick_rebinds_unloaded_sticker :
  let st := restart (USAGE_FILE saved_by_old_run) in
  let first := pick_gif_for_video two_gifs 0 Written "v" st in
  let second := pick_gif_for_video two_gifs 1 Written "v" first.2 in
  bound_name st "v" = Some "gone.gif" ∧
  bound_name second.2 "v" = Some "gone.gif" ∧
  first.1 = [[[BGRA 1 1 1 255]]] ∧
  second.1 = [[[BGRA 2 2 2 255]]] ∧
  first.1 ≠ second.1.
Proof. vm_compute. repeat split; done. Qed.

Lemma pick_idempotent_loaded_witness :
  (∀ n, bound_name (restart Missing) "v1" = Some n →
        is_Some (two_gifs !! n)) ∧
  pick_gif_for_video two_gifs 5 Torn "v1"
    (pick_all two_gifs three_calls
       (pick_gif_for_video two_gifs 0 Written "v1" (restart Missing)).2).2
  = ((pick_gif_for_video two_gifs 0 Written "v1" (restart Missing)).1,
     (pick_all two_gifs three_calls
       (pick_gif_for_video two_gifs 0 Written "v1" (restart Missing)).2).2).
Proof.
  assert (∀ n, bound_name (restart Missing) "v1" = Some n →
               is_Some (two_gifs !! n)) as Hfree.
  { intros n Hn. vm_compute in Hn. discriminate. }
  split; [exact Hfree|].
  exact (proj1 (pick_idempotent_loaded two_gifs 0 5 Written Torn "v1"
                  (restart Missing) three_calls Hfree)).
Defined.

(** C1 fails as stated.  The ledger is read from the file at every start.
    An earlier run with only [gone.gif] loaded leaves [gone.gif] in the
    used list.  The process restarts with [a.gif] and [b.gif] loaded.  Two
    new jobs then both get [a.gif] (draws 0 and 0): after the first the
    used list holds two names, as many as there are stickers, so the
    second call empties it and offers [a.gif] again, and [b.gif] was never
    chosen. *)
Lemma pick_repeats_after_stale_used_list :
  let st := restart (USAGE_FILE saved_by_old_run) in
  let calls := [("v1", 0%nat, Written); ("v2", 0%nat, Written)] in
  let run := pick_all two_gifs calls st in
  used (USAGE_DATA st) = ["gone.gif"] ∧
  two_gifs !! "gone.gif" = None ∧
  gif_names two_gifs = ["a.gif"; "b.gif"] ∧
  NoDup calls.*1.*1 ∧
  bound_name st "v1" = None ∧ bound_name st "v2" = None ∧
  chosen_names run.1 = ["a.gif"; "a.gif"] ∧
  used (USAGE_DATA (pick_all two_gifs [("v1", 0%nat, Written)] st).2)
    = ["gone.gif"; "a.gif"] ∧
  used (USAGE_DATA run.2) = ["a.gif"].
Proof.
  cbv zeta. split; [reflexivity|]. split; [reflexivity|].
  split; [reflexivity|]. split; [compute_done|].
  vm_compute. repeat split; reflexivity.
Qed.

(** ** The time window *)

Lemma current_sec_lt_1 (frame_idx fps : Z) :
  0 < fps → (current_sec frame_idx fps < 1)%Q ↔ frame_idx < fps.
Proof.
  intros Hfps. destruct fps as [|p|p]; try lia.
  unfold current_sec, Qlt, Qdiv, Qinv, Qmult, inject_Z. simpl. lia.
Qed.

Lemma elapsed_gt_5 (frame_idx fps : Z) :
  0 < fps →
  (5 < current_sec frame_idx fps - 1)%Q ↔ 6 * fps < frame_idx.
Proof.
  intros Hfps. destruct fps as [|p|p]; try lia.
  unfold current_sec, Qlt, Qminus, Qplus, Qopp, Qdiv, Qinv, Qmult, inject_Z.
  simpl. lia.
Qed.

(** The window is open exactly from [frame_idx = fps] to [frame_idx = 6 fps],
    both ends included. *)
Lemma gif_idx_window (frame_idx fps : Z) (total : nat) :
  0 < fps →
  is_Some (gif_idx frame_idx fps total) ↔ fps ≤ frame_idx ≤ 6 * fps.
Proof.
  intros Hfps. unfold gif_idx, start_sec, duration_sec.
  pose proof (current_sec_lt_1 frame_idx fps Hfps) as [H1 H1'].
  pose proof (elapsed_gt_5 frame_idx fps Hfps) as [H5 H5'].
  destruct (Qlt_le_dec _ _) as [Hlt|Hge].
  { specialize (H1 Hlt). split; [by intros [? ?]|intros; lia]. }
  assert (fps ≤ frame_idx).
  { destruct (Z.lt_ge_cases frame_idx fps) as [Hc|Hc]; [|lia].
    exfalso. by apply (Qlt_not_le _ _ (H1' Hc)). }
  destruct (Qlt_le_dec _ _) as [Hlt2|Hge2].
  { specialize (H5 Hlt2). split; [by intros [? ?]|intros; lia]. }
  split; [|by eexists]. intros _. split; [done|].
  destruct (Z.lt_ge_cases (6 * fps) frame_idx) as [Hc|Hc]; [|lia].
  exfalso. by apply (Qlt_not_le _ _ (H5' Hc)).
Qed.

(** An open window names a frame of the sticker. *)
Lemma gif_idx_bound (frame_idx fps : Z) (total i : nat) :
  (0 < total)%nat → gif_idx frame_idx fps total = Some i → (i < total)%nat.
Proof.
  intros Htot. unfold gif_idx.
  destruct (Qlt_le_dec _ _); [done|]. destruct (Qlt_le_dec _ _); [done|].
  intros [= <-].
  match goal with
  | |- context [Z.modulo ?a _] =>
      pose proof (Z.mod_pos_bound a (Z.of_nat total))
  end.
  lia.
Qed.



(** ** The plugin as a whole *)

(** What one call of the plugin amounts to, for a frame rate that is not
    zero: nothing without stickers; otherwise the selection runs, and when
    the window is open the sticker frame it names is laid over the frame at
    the bottom-right position. *)
Lemma apply_effect_frame_cases (ALL_GIFS : gmap string gif) (r : nat)
    (io : save_result) (f : frame) (frame_idx fps : Z) (video_id : string)
    (st : ledger) :
  fps ≠ 0 →
  let picked := pick_gif_for_video ALL_GIFS r io video_id st in
  let res := apply_effect_frame ALL_GIFS r io f frame_idx fps video_id st in
  res.2 = picked.2 ∧
  match gif_idx frame_idx fps (length picked.1) with
  | Some i =>
      picked.1 = [] ∧ res.1 = Returned f ∨
      ∃ ov, picked.1 !! i = Some ov ∧
            res.1 = overlay_transparent f ov (place f ov).1 (place f ov).2
  | None => res.1 = Returned f
  end.
Proof.
  intros Hfps. cbv zeta. unfold apply_effect_frame.
  destruct (decide (ALL_GIFS = ∅)) as [HG|HG].
  { destruct (bound_name st video_id) as [n|] eqn:Hv.
    - rewrite (pick_bound _ _ _ _ _ _ Hv). subst ALL_GIFS. simpl.
      split; [done|].
      rewrite lookup_empty. unfold gif_values.
      rewrite map_to_list_empty. simpl.
      destruct (gif_idx _ _ _); [by left|done].
    - rewrite (pick_no_gifs _ _ _ _ _ HG Hv). simpl. split; [done|].
      destruct (gif_idx _ _ _); [by left|done]. }
  destruct (pick_gif_for_video ALL_GIFS r io video_id st) as [gfs st'].
  simpl. destruct gfs as [|g0 gfs].
  { split; [done|]. destruct (gif_idx _ _ _); [by left|done]. }
  apply Z.eqb_neq in Hfps. rewrite Hfps.
  destruct (gif_idx frame_idx fps (length (g0 :: gfs))) as [i|] eqn:Hi;
    [|done].
  apply gif_idx_bound in Hi; [|simpl; lia].
  apply lookup_lt_is_Some in Hi as [ov Hov]. rewrite Hov.
  split; [done|]. right. exists ov. by destruct (place f ov).
Qed.


(** A sticker of two opaque one-pixel frames, and a black 13 x 13 frame,
    the smallest one it fits into with the padding. *)
Definition blink : gif := [[[BGRA 10 10 10 255]]; [[BGRA 20 20 20 255]]].

Definition one_gif : gmap string gif := <["blink.gif" := blink]> ∅.

Definition black13 : frame := replicate 13 (replicate 13 [0; 0; 0]).



(** ** Placement *)


(** A plugin call on a frame the sticker does not fit into returns the
    frame untouched, inside the window as well. *)
Example sticker_too_large :
  (apply_effect_frame one_gif 0 Written
     (replicate 12 (replicate 40 [0; 0; 0])) 60 30 "video_1.mp4"
     (restart Missing)).1
  = Returned (replicate 12 (replicate 40 [0; 0; 0])).
Proof. vm_compute. reflexivity. Qed.


(** ** Failure isolation in the compositor *)

(** The sticker plugin as an effect of the compositor, for a given draw and
    save result. *)
Definition sticker_effect (ALL_GIFS : gmap string gif) (r : nat)
    (io : save_result) : effect ledger :=
  fun fr ctx st =>
    apply_effect_frame ALL_GIFS r io fr (Z.of_nat (ctx_frame_idx ctx))
      (ctx_fps ctx) (ctx_video_id ctx) st.

Section compositor_facts.
Context {St : Type}.
Implicit Types (e : effect St) (pre post : list (effect St))
  (ctx : frame_context) (fr : frame) (s : St).

(** The effects before a position run first; the rest continue from the
    frame and state they leave, with the log positions shifted. *)
Lemma apply_effects_app pre post k ctx fr s :
  apply_effects (pre ++ post) k ctx fr s =
  let '(fr1, s1, log1) := apply_effects pre k ctx fr s in
  let '(fr2, s2, log2) :=
    apply_effects post (k + length pre) ctx fr1 s1 in
  (fr2, s2, log1 ++ log2).
Proof.
  revert k fr s. induction pre as [|e pre IH]; intros k fr s; simpl.
  { rewrite Nat.add_0_r. by destruct (apply_effects post k ctx fr s) as [[? ?] ?]. }
  destruct (e fr ctx s) as [[fr'|buf] s'].
  - rewrite IH. by replace (S k + length pre)%nat with (k + S (length pre))%nat by lia.
  - rewrite IH. replace (S k + length pre)%nat with (k + S (length pre))%nat by lia.
    destruct (apply_effects pre (S k) ctx buf s') as [[fr1 s1] log1].
    by destruct (apply_effects post _ ctx fr1 s1) as [[fr2 s2] log2].
Qed.

(** The frame and state a list of effects produces do not depend on the
    position the log starts counting from. *)
Lemma apply_effects_shift post k k' ctx fr s :
  (apply_effects post k ctx fr s).1 = (apply_effects post k' ctx fr s).1.
Proof.
  revert k k' fr s. induction post as [|e post IH]; intros k k' fr s; simpl.
  { done. }
  destruct (e fr ctx s) as [[fr'|buf] s']; [apply IH|].
  specialize (IH (S k) (S k') buf s').
  destruct (apply_effects post (S k) ctx buf s') as [[? ?] ?].
  destruct (apply_effects post (S k') ctx buf s') as [[? ?] ?].
  simpl in *. done.
Qed.
End compositor_facts.

(** The result of [create_video] and what the subprocess is asked to do,
    frame contents aside, do not depend on the effects: no effect can stop
    a frame from being written or end the job. *)
Lemma write_frames_ok_any_effects {St St'} (effects : list (effect St))
    (effects' : list (effect St')) enc img fps video_id audio_name idxs s s' :
  (write_frames effects enc img fps video_id audio_name idxs s).1.1 =
  (write_frames effects' enc img fps video_id audio_name idxs s').1.1 ∧
  length (write_frames effects enc img fps video_id audio_name idxs s).2 =
  length (write_frames effects' enc img fps video_id audio_name idxs s').2.
Proof.
  revert s s'. induction idxs as [|i idxs IH]; intros s s'; simpl; [done|].
  destruct (render_frame effects img _ s) as [[fr s1] log].
  destruct (render_frame effects' img _ s') as [[fr' s1'] log'].
  destruct (write_ok enc i); [|done].
  specialize (IH s1 s1').
  destruct (write_frames effects _ _ _ _ _ idxs s1) as [[ok s2] evs].
  destruct (write_frames effects' _ _ _ _ _ idxs s1') as [[ok' s2'] evs'].
  simpl in *. destruct IH as [-> ->]. done.
Qed.

(** C4, as the code has it.  An effect that raises is caught where it was
    called and logged under its position; the effects after it still run,
    on the buffer and the state the failing effect left behind; the frame
    is produced all the same.  The buffer is the one the effect was handed,
    so when the effect raises without having written into it (and without
    having changed the shared state) the frame is the one the compositor
    produces without that effect. *)
Theorem failing_effect_isolated {St : Type} (pre post : list (effect St))
    (e : effect St) (img : frame) (ctx : frame_context) (s : St)
    (buf : frame) (s' : St) :
  let before := render_frame pre img ctx s in
  e before.1.1 ctx before.1.2 = (Raised buf, s') →
  let out := render_frame (pre ++ e :: post) img ctx s in
  length pre ∈ out.2 ∧
  out.1 = (apply_effects post 0 ctx buf s').1 ∧
  (buf = before.1.1 → s' = before.1.2 →
   out.1 = (render_frame (pre ++ post) img ctx s).1).
Proof.
  cbv zeta. unfold render_frame. intros He.
  rewrite !apply_effects_app.
  destruct (apply_effects pre 0 ctx img s) as [[fr1 s1] log1].
  simpl in He. simpl. rewrite He.
  pose proof (apply_effects_shift post (S (length pre)) 0 ctx buf s') as Hs.
  pose proof (apply_effects_shift post (length pre) 0 ctx fr1 s1) as Hs'.
  destruct (apply_effects post (S (length pre)) ctx buf s') as [[fr2 s2] log2].
  destruct (apply_effects post (length pre) ctx fr1 s1) as [[fr3 s3] log3].
  simpl in *. split; [|split].
  - apply elem_of_app. right. left.
  - done.
  - intros -> ->. by rewrite Hs, Hs'.
Qed.

(** An effect that paints the whole buffer white and then raises. *)
Definition scribble : effect unit :=
  fun fr _ s =>
    (Raised (map (map (fun _ : pixel => [255; 255; 255])) fr), s).

(** An effect that returns its frame as it is. *)
Definition identity_effect : effect unit :=
  fun fr _ s => (Returned fr, s).

(** C4 fails as stated.  [scribble] raises on every call, yet with it in
    the list the compositor puts out a white frame where the list without
    it puts out the base image: the effect wrote into the working buffer
    before it raised, and the loop carries that buffer on.  The sticker
    plugin of the repository does the same on a frame with two channels:
    it blends channels 0 and 1, then raises on channel 2. *)
Lemma failing_effect_changes_output :
  let ctx := FrameContext 30 30 "video_1.mp4" "song" in
  let img : frame := [[[1; 2; 3]]] in
  (∀ fr c s, ∃ buf, scribble fr c s = (Raised buf, s)) ∧
  (render_frame [scribble; identity_effect] img ctx tt).1.1
    = [[[255; 255; 255]]] ∧
  (render_frame [identity_effect] img ctx tt).1.1 = [[[1; 2; 3]]] ∧
  (render_frame [scribble; identity_effect] img ctx tt).2 = [0%nat] ∧
  let grey : frame := replicate 13 (replicate 13 [0; 0]) in
  sticker_effect one_gif 0 Written grey ctx (restart Missing)
    = (Raised (<[0%nat := <[0%nat := [10; 10]]> (replicate 13 [0; 0])]> grey),
       (pick_gif_for_video one_gif 0 Written "video_1.mp4"
          (restart Missing)).2) ∧
  (render_frame [sticker_effect one_gif 0 Written] grey ctx
     (restart Missing)).1.1
    = <[0%nat := <[0%nat := [10; 10]]> (replicate 13 [0; 0])]> grey.
Proof.
  cbv zeta. split; [by eexists|]. vm_compute. repeat split; reflexivity.
Qed.

Lemma failing_effect_isolated_witness :
  let ctx := FrameContext 0 10 "video_1.mp4" "song" in
  let fails : effect unit := fun fr _ s => (Raised fr, s) in
  fails [[[1; 2; 3]]] ctx tt = (Raised [[[1; 2; 3]]], tt) ∧
  (render_frame ([identity_effect] ++ fails :: [identity_effect])
     [[[1; 2; 3]]] ctx tt).1
  = (render_frame ([identity_effect] ++ [identity_effect])
       [[[1; 2; 3]]] ctx tt).1.
Proof.
  cbv zeta. split; [reflexivity|].
  refine (proj2 (proj2
    (failing_effect_isolated [identity_effect] [identity_effect]
       (fun fr _ s => (Raised fr, s)) [[[1; 2; 3]]]
       (FrameContext 0 10 "video_1.mp4" "song") tt [[[1; 2; 3]]] tt _)) _ _);
    reflexivity.
Defined.

(** ** The encoder bridge *)

(** The indices of the frames handed to the subprocess, in order. *)
Definition written (evs : list event) : list nat :=
  omap (fun e => match e with EvWrite i _ => Some i | _ => None end) evs.

Definition spawned (evs : list event) : bool :=
  bool_decide (∃ c, EvSpawn c ∈ evs).

Lemma written_app evs evs' : written (evs ++ evs') = written evs ++ written evs'.
Proof. apply omap_app. Qed.

Section encoder_facts.
Context {St : Type}.
Variables (effects : list (effect St)) (enc : encoder) (img : frame)
  (fps : Z) (video_id audio_name : string).

(** The loop writes the frames in index order and stops at the first
    write that fails. *)
Lemma write_frames_written idxs s :
  let res := write_frames effects enc img fps video_id audio_name idxs s in
  (res.1.1 = true ↔ ∀ i, i ∈ idxs → write_ok enc i = true) ∧
  (res.1.1 = true → written res.2 = idxs) ∧
  Forall (fun e => ∃ i f, e = EvWrite i f) res.2.
Proof.
  revert s. induction idxs as [|i idxs IH]; intros s; simpl.
  { split; [|done]. split; [by intros _ j ?%elem_of_nil|done]. }
  destruct (render_frame effects img _ s) as [[fr s1] log].
  destruct (write_ok enc i) eqn:Hw; simpl.
  - specialize (IH s1).
    destruct (write_frames effects enc img fps video_id audio_name idxs s1)
      as [[ok s2] evs].
    simpl in *. destruct IH as (Hiff & Hwr & Hall).
    split; [|split].
    + rewrite Hiff. split.
      * intros H j [->|Hj]%elem_of_cons; auto.
      * intros H j Hj. apply H. by right.
    + intros Hok. unfold written. simpl. fold (written evs).
      by rewrite Hwr.
    + constructor; [by eexists _, _|done].
  - split; [|done]. split; [done|].
    intros H. rewrite H in Hw; [done|left].
Qed.
End encoder_facts.

(** C7.  [create_video] returns [False] whenever the subprocess exits with
    a code other than zero, and whenever the wait for its exit runs into
    the timeout; in that case the last thing done to the subprocess, right
    after the wait, is to kill it.  It returns [True] exactly when the
    image and the duration were read, at least one frame is due, the
    subprocess started, every frame was written, the pipe was closed and
    the subprocess exited with code zero; the frames were then handed over
    in index order, followed by the close and the wait, and nothing was
    killed. *)
Theorem create_video_result {St : Type} (effects : list (effect St))
    (enc : encoder) (img : option frame) (audio : probe) (captions : bool)
    (fps : Z) (video_id audio_name : string) (s : St) :
  let res :=
    create_video effects enc img audio captions fps video_id audio_name s in
  let ok := res.1.1 in
  let evs := res.2 in
  (∀ rc, wait_result enc = Exited rc → rc ≠ 0 → ok = false) ∧
  (wait_result enc = TimedOut →
   ok = false ∧
   (EvWait ∈ evs → ∃ evs0, evs = evs0 ++ [EvClose; EvWait; EvKill])) ∧
  (ok = true ↔
   ∃ base d,
     img = Some base ∧ audio = Duration d ∧ 0 < total_frames d fps ∧
     spawn_ok enc = true ∧
     (∀ i, (i < Z.to_nat (total_frames d fps))%nat → write_ok enc i = true) ∧
     close_ok enc = true ∧ wait_result enc = Exited 0) ∧
  (ok = true →
   ∃ d, audio = Duration d ∧
        written evs = seq 0 (Z.to_nat (total_frames d fps)) ∧
        head evs = Some (EvSpawn captions) ∧
        (∃ evs0, evs = evs0 ++ [EvClose; EvWait]) ∧
        EvKill ∉ evs).
Proof.
  cbv zeta. unfold create_video.
  destruct img as [base|].
  2:{ simpl. repeat split; try done; [set_solver|].
      by intros (? & ? & ? & _). }
  destruct audio as [|d].
  { simpl. repeat split; try done; [set_solver|].
    by intros (? & ? & _ & ? & _). }
  destruct (total_frames d fps <=? 0) eqn:Hn.
  { simpl. apply Z.leb_le in Hn. repeat split; try done; [set_solver|].
    intros (? & ? & _ & [= <-] & ? & _). lia. }
  apply Z.leb_gt in Hn.
  destruct (spawn_ok enc) eqn:Hsp; simpl.
  2:{ repeat split; try done; [set_solver|].
      by intros (? & ? & _ & _ & _ & ? & _). }
  pose proof (write_frames_written effects enc base fps video_id audio_name
                (seq 0 (Z.to_nat (total_frames d fps))) s) as Hwf.
  destruct (write_frames effects enc base fps video_id audio_name _ s)
    as [[okw s1] evs].
  simpl in Hwf. destruct Hwf as (Hiff & Hwr & Hall).
  assert ((EvWait ∉ evs) ∧ (EvKill ∉ evs)) as [HnoW HnoK].
  { split; intros Hin; rewrite Forall_forall in Hall;
      by destruct (Hall _ Hin) as (? & ? & ?). }
  assert ((∀ i, (i < Z.to_nat (total_frames d fps))%nat →
                write_ok enc i = true)
          ↔ (okw = true)) as Hall_w.
  { rewrite Hiff. split; intros H i Hi; apply H.
    - apply elem_of_seq in Hi. lia.
    - apply elem_of_seq. lia. }
  destruct okw; simpl.
  2:{ repeat split; try done; [set_solver|].
      intros (? & ? & _ & [= <-] & _ & _ & Hw & _).
      by apply Hall_w in Hw. }
  destruct (close_ok enc) eqn:Hcl; simpl.
  2:{ repeat split; try done; [set_solver|].
      by intros (? & ? & _ & _ & _ & _ & _ & ? & _). }
  destruct (wait_result enc) as [rc|] eqn:Hwt; simpl.
  2:{ repeat split; try done.
      - intros _. by exists (EvSpawn captions :: evs).
      - by intros (? & ? & _ & _ & _ & _ & _ & _ & ?). }
  destruct (rc =? 0) eqn:Hrc; simpl.
  - apply Z.eqb_eq in Hrc. subst rc. split; [|split; [|split]].
    + intros rc [= <-] Hne. done.
    + done.
    + split; [|done]. intros _. exists base, d.
      repeat split; try done. by apply Hall_w.
    + intros _. exists d. split; [done|].
      split.
      { change (written ([EvSpawn captions] ++ evs ++ [EvClose; EvWait])
                = seq 0 (Z.to_nat (total_frames d fps))).
        rewrite !written_app. simpl. rewrite Hwr by done.
        by rewrite app_nil_r. }
      split; [done|]. split; [by exists (EvSpawn captions :: evs)|].
      set_solver.
  - apply Z.eqb_neq in Hrc. repeat split; try done.
    intros (? & ? & _ & _ & _ & _ & _ & _ & [= ?]). done.
Qed.

(** An encoder that behaves, and one that hangs at the end. *)
Definition good_encoder : encoder := Encoder true (fun _ => true) true (Exited 0).

Definition hung_encoder : encoder := Encoder true (fun _ => true) true TimedOut.

Definition failing_encoder : encoder :=
  Encoder true (fun _ => true) true (Exited 1).

(** Three tenths of a second at 10 frames per second: three frames. *)
Example create_video_three_frames :
  create_video [identity_effect] good_encoder (Some [[[1; 2; 3]]])
    (Duration (3 # 10)) true 10 "video_1.mp4" "song" tt
  = (true, tt,
     [EvSpawn true; EvWrite 0 [[[1; 2; 3]]]; EvWrite 1 [[[1; 2; 3]]];
      EvWrite 2 [[[1; 2; 3]]]; EvClose; EvWait]).
Proof. vm_compute. reflexivity. Qed.

Example create_video_hung :
  create_video [identity_effect] hung_encoder (Some [[[1; 2; 3]]])
    (Duration (1 # 10)) false 10 "video_1.mp4" "song" tt
  = (false, tt, [EvSpawn false; EvWrite 0 [[[1; 2; 3]]]; EvClose; EvWait; EvKill]).
Proof. vm_compute. reflexivity. Qed.

Lemma create_video_result_witness :
  wait_result failing_encoder = Exited 1 ∧ 1 ≠ 0 ∧
  (create_video [identity_effect] failing_encoder (Some [[[1; 2; 3]]])
     (Duration (3 # 10)) true 10 "video_1.mp4" "song" tt).1.1 = false.
Proof.
  assert (wait_result failing_encoder = Exited 1) as Hw by reflexivity.
  assert (1 ≠ 0) as Hne by lia.
  repeat (split; [assumption|]).
  exact (proj1 (create_video_result [identity_effect] failing_encoder
                  (Some [[[1; 2; 3]]]) (Duration (3 # 10)) true 10
                  "video_1.mp4" "song" tt) 1 Hw Hne).
Defined.

(** C9.  When the number of frames computed from the duration of the audio
    is zero or negative, [create_video] returns [False] at once: no
    subprocess is started, no frame is rendered or written, and the plugin
    state is as before. *)
Theorem create_video_no_frames {St : Type} (effects : list (effect St))
    (enc : encoder) (img : option frame) (d : Q) (captions : bool)
    (fps : Z) (video_id audio_name : string) (s : St) :
  total_frames d fps ≤ 0 →
  create_video effects enc img (Duration d) captions fps video_id audio_name s
  = (false, s, []).
Proof.
  intros Hn. unfold create_video. destruct img as [base|]; [|done].
  apply Z.leb_le in Hn. by rewrite Hn.
Qed.

(** A twentieth of a second of audio at 10 frames per second is less than
    one frame. *)
Lemma create_video_no_frames_witness :
  total_frames (5 # 100) 10 ≤ 0 ∧
  create_video [identity_effect] good_encoder (Some [[[1; 2; 3]]])
    (Duration (5 # 100)) true 10 "video_1.mp4" "song" tt
  = (false, tt, []).
Proof.
  assert (total_frames (5 # 100) 10 ≤ 0) as Hn by (vm_compute; discriminate).
  split; [exact Hn|].
  exact (create_video_no_frames [identity_effect] good_encoder
           (Some [[[1; 2; 3]]]) (5 # 100) true 10 "video_1.mp4" "song" tt Hn).
Defined.

(** ** The orchestrator *)

Definition captions_run (steps : list step) : nat :=
  length (filter (fun x => x = Caption) steps).

Definition is_render (x : step) : bool :=
  match x with Render _ => true | _ => false end.

Definition renders_run (steps : list step) : nat :=
  length (filter (fun x => is_render x = true) steps).

(** C5.  For every pair, whatever the caption generator and the renders
    do: [generate_srt] is called exactly once, and [create_video] at most
    [MAX_EDIT_RETRIES] times.  If [generate_srt] fails, no render is
    attempted and the pair ends as a failure.  If the first two renders
    fail (return [False] or raise) and the third succeeds, the pair ends as
    a success after one caption call and three renders, with the caption
    path of the first attempt still in hand. *)
Theorem process_pair_retries (caption : option string)
    (render : nat → render_result) :
  let res := process_pair caption render in
  let ok := res.1.1 in
  let srt_file := res.1.2 in
  let steps := res.2 in
  captions_run steps = 1%nat ∧
  (renders_run steps ≤ MAX_EDIT_RETRIES)%nat ∧
  srt_file = caption ∧
  (caption = None → ok = false ∧ steps = [Caption]) ∧
  (is_Some caption →
   render 1%nat ≠ Finished true → render 2%nat ≠ Finished true →
   render 3%nat = Finished true →
   ok = true ∧
   steps = [Caption; Render 1; Sleep; Render 2; Sleep; Render 3]) ∧
  (ok = true ↔
   is_Some caption ∧ ∃ k, (1 ≤ k ≤ MAX_EDIT_RETRIES)%nat ∧
                          render k = Finished true).
Proof.
  cbv zeta. unfold process_pair, MAX_EDIT_RETRIES.
  destruct caption as [p|]; simpl.
  2:{ repeat split; try done.
      - vm_compute. lia.
      - by intros [[? ?] _]. }
  destruct (render 1%nat) as [[|]|] eqn:H1;
    destruct (render 2%nat) as [[|]|] eqn:H2;
    destruct (render 3%nat) as [[|]|] eqn:H3;
    simpl; (split; [reflexivity|]); (split; [vm_compute; lia|]);
    (split; [reflexivity|]); (split; [done|]); split;
    try (intros _ Hn1 Hn2 Hr3;
         first [done | congruence | split; reflexivity]);
    first
      [ split; [intros _; split; [by eexists|]|done];
        first [ exists 1%nat; split; [lia|assumption]
              | exists 2%nat; split; [lia|assumption]
              | exists 3%nat; split; [lia|assumption] ]
      | split; [done|];
        intros (_ & k & Hk & Hr);
        assert (k = 1 ∨ k = 2 ∨ k = 3)%nat as [ -> | [ -> | -> ] ] by lia;
        congruence ].
Qed.

(** Two failed renders, then a good one. *)
Definition third_time_lucky (k : nat) : render_result :=
  match k with
  | 1%nat => Finished false
  | 2%nat => Crashed
  | _ => Finished true
  end.

Lemma process_pair_retries_witness :
  is_Some (Some "audio/song.srt") ∧
  third_time_lucky 1 ≠ Finished true ∧
  third_time_lucky 2 ≠ Finished true ∧
  third_time_lucky 3 = Finished true ∧
  (process_pair (Some "audio/song.srt") third_time_lucky).1.1 = true ∧
  (process_pair (Some "audio/song.srt") third_time_lucky).2
  = [Caption; Render 1; Sleep; Render 2; Sleep; Render 3].
Proof.
  assert (is_Some (Some "audio/song.srt")) as Hc by by eexists.
  assert (third_time_lucky 1 ≠ Finished true) as H1 by discriminate.
  assert (third_time_lucky 2 ≠ Finished true) as H2 by discriminate.
  assert (third_time_lucky 3 = Finished true) as H3 by reflexivity.
  repeat (split; [assumption|]).
  exact (proj1 (proj2 (proj2 (proj2 (proj2
    (process_pair_retries (Some "audio/song.srt") third_time_lucky)))))
    Hc H1 H2 H3).
Defined.

(** A render that never succeeds uses up the three attempts. *)
Example process_pair_exhausted :
  process_pair (Some "audio/song.srt") (fun _ => Finished false)
  = (false, Some "audio/song.srt",
     [Caption; Render 1; Sleep; Render 2; Sleep; Render 3]).
Proof. reflexivity. Qed.

(** C6.  The cleanup after the retry loop, for a pair whose image and audio
    files exist and whose caption file, if there is one, is a third file
    (it ends in [.srt]; the sources were listed by their image and audio
    extensions).  Whether the pair succeeded or not, the caption file is
    gone afterwards.  After a success the audio and the image are gone as
    well; after a failure both are still there.  No other file is
    touched. *)
Theorem final_cleanup_files (fs : gset string) (srt_file : option string)
    (video_success : bool) (img_path aud_path : string) :
  img_path ∈ fs → aud_path ∈ fs →
  srt_file ≠ Some img_path → srt_file ≠ Some aud_path →
  let fs' := final_cleanup fs srt_file video_success img_path aud_path in
  (∀ p, srt_file = Some p → p ∉ fs') ∧
  (video_success = true → (img_path ∉ fs') ∧ (aud_path ∉ fs')) ∧
  (video_success = false → img_path ∈ fs' ∧ aud_path ∈ fs') ∧
  (∀ q, q ≠ img_path → q ≠ aud_path → srt_file ≠ Some q →
        (q ∈ fs' ↔ q ∈ fs)).
Proof.
  intros Himg Haud Hsi Hsa. cbv zeta. unfold final_cleanup, os_remove.
  set (fs1 := match srt_file with
              | Some p => if decide (p ∈ fs) then fs ∖ {[p]} else fs
              | None => fs
              end).
  assert (∀ q, q ∈ fs1 ↔ (q ∈ fs ∧ srt_file ≠ Some q)) as Hfs1.
  { intros q. subst fs1. destruct srt_file as [p|]; [|set_solver].
    destruct (decide (p ∈ fs)); set_solver. }
  assert (aud_path ∈ fs1) as Haud1 by by apply Hfs1.
  assert (img_path ∈ fs1) as Himg1 by by apply Hfs1.
  destruct video_success.
  - rewrite decide_True by done. simpl.
    assert (∀ q, q ∈ default (fs1 ∖ {[aud_path]})
                     (if decide (img_path ∈ fs1 ∖ {[aud_path]})
                      then Some (fs1 ∖ {[aud_path]} ∖ {[img_path]})
                      else None)
                 ↔ q ∈ fs1 ∧ q ≠ aud_path ∧ q ≠ img_path) as Hfs2.
    { intros q.
      destruct (decide (img_path ∈ fs1 ∖ {[aud_path]})) as [Hin|Hout]; simpl.
      - rewrite !elem_of_difference, !elem_of_singleton. tauto.
      - assert (img_path = aud_path) as Heq.
        { destruct (decide (img_path = aud_path)) as [|Hne]; [done|].
          exfalso. apply Hout.
          by rewrite elem_of_difference, elem_of_singleton. }
        rewrite elem_of_difference, elem_of_singleton, Heq. tauto. }
    split; [|split; [|split]].
    + intros p -> [[_ Hp]%Hfs1 _]%Hfs2. done.
    + intros _. split; intros (_ & ? & ?)%Hfs2; done.
    + done.
    + intros q ? ? ?. rewrite Hfs2, Hfs1. naive_solver.
  - split; [|split; [|split]].
    + intros p -> [_ Hp]%Hfs1. done.
    + done.
    + done.
    + intros q ? ? ?. rewrite Hfs1. naive_solver.
Qed.

(** The files around one pair, once the loop is over. *)
Definition pair_files : gset string :=
  {[ "images/a.png"; "audio/a.mp3"; "audio/a.srt"; "output/old.mp4" ]}.

Lemma final_cleanup_files_witness :
  "images/a.png" ∈ pair_files ∧ "audio/a.mp3" ∈ pair_files ∧
  Some "audio/a.srt" ≠ Some "images/a.png" ∧
  Some "audio/a.srt" ≠ Some "audio/a.mp3" ∧
  "images/a.png" ∈ final_cleanup pair_files (Some "audio/a.srt") false
                     "images/a.png" "audio/a.mp3" ∧
  "audio/a.mp3" ∈ final_cleanup pair_files (Some "audio/a.srt") false
                    "images/a.png" "audio/a.mp3".
Proof.
  assert ("images/a.png" ∈ pair_files) as Hi by compute_done.
  assert ("audio/a.mp3" ∈ pair_files) as Ha by compute_done.
  assert (Some "audio/a.srt" ≠ Some "images/a.png") as Hsi by discriminate.
  assert (Some "audio/a.srt" ≠ Some "audio/a.mp3") as Hsa by discriminate.
  split; [exact Hi|]. split; [exact Ha|].
  split; [exact Hsi|]. split; [exact Hsa|].
  exact (proj1 (proj2 (proj2
    (final_cleanup_files pair_files (Some "audio/a.srt") false
       "images/a.png" "audio/a.mp3" Hi Ha Hsi Hsa))) eq_refl).
Defined.

(** The same files after a success and after a failure. *)
Example final_cleanup_both_ways :
  final_cleanup pair_files (Some "audio/a.srt") true
    "images/a.png" "audio/a.mp3"
    = {[ "output/old.mp4" ]} ∧
  final_cleanup pair_files (Some "audio/a.srt") false
    "images/a.png" "audio/a.mp3"
    = {[ "images/a.png"; "audio/a.mp3"; "output/old.mp4" ]}.
Proof. split; compute_done. Qed.

(* ================================================================== *)
(** * Further properties of the sticker selection *)
(* ================================================================== *)

(** Every bound name is a loaded sticker. *)
Definition bindings_loaded (ALL_GIFS : gmap string gif) (st : ledger) : Prop :=
  ∀ v n, bound_name st v = Some n → is_Some (ALL_GIFS !! n).

Lemma elem_of_gif_values (ALL_GIFS : gmap string gif) (g : gif) :
  g ∈ gif_values ALL_GIFS ↔ ∃ n, ALL_GIFS !! n = Some g.
Proof.
  unfold gif_values. rewrite list_elem_of_fmap. split.
  - intros ([k g'] & -> & Hin). apply elem_of_map_to_list in Hin. by exists k.
  - intros [n Hn]. exists (n, g). split; [done|].
    by apply elem_of_map_to_list.
Qed.

Lemma gif_values_nil (ALL_GIFS : gmap string gif) :
  gif_values ALL_GIFS = [] ↔ ALL_GIFS = ∅.
Proof.
  unfold gif_values. rewrite <- map_to_list_empty_iff. split.
  - apply fmap_nil_inv.
  - by intros ->.
Qed.

(** One call keeps a consistent used list consistent, for any identity. *)
Lemma pick_used_ok (ALL_GIFS : gmap string gif) r io v st :
  used_ok ALL_GIFS (used (USAGE_DATA st)) →
  used_ok ALL_GIFS
    (used (USAGE_DATA (pick_gif_for_video ALL_GIFS r io v st).2)).
Proof.
  intros Hok. destruct (bound_name st v) as [m|] eqn:Hv.
  { by rewrite (pick_bound _ _ _ _ _ _ Hv). }
  destruct (decide (ALL_GIFS = ∅)) as [HG|HG].
  { by rewrite (pick_no_gifs _ _ _ _ _ HG Hv). }
  destruct (pick_unbound ALL_GIFS r io v st HG Hv) as (c & g & Hc & Hg & ->).
  simpl. destruct Hok as [Hnd Hsub].
  pose proof (available_names_elem _ _ _ Hc) as Hcall.
  rewrite (used_count_NoDup _ Hnd) in *.
  pose proof (used_ok_length ALL_GIFS _ (conj Hnd Hsub)) as Hlen.
  destruct (size ALL_GIFS <=? length (used (USAGE_DATA st)))%nat eqn:Hfull.
  - split; [apply NoDup_singleton|].
    intros n ->%list_elem_of_singleton. done.
  - apply Nat.leb_gt in Hfull. split.
    + apply NoDup_app. split; [done|]. split; [|apply NoDup_singleton].
      intros n Hn ->%list_elem_of_singleton.
      eapply available_names_fresh; [exact Hnd|exact Hsub| | |exact Hc|exact Hn].
      * apply gif_names_NoDup.
      * rewrite gif_names_length. lia.
    + intros n [Hn| ->%list_elem_of_singleton]%elem_of_app; auto.
Qed.

(** X1.  Whatever identities are asked for, in whatever order and however
    often, a used list without repetition that names loaded stickers only
    stays that way, and never grows beyond the number of loaded stickers. *)
Theorem used_list_stays_consistent (ALL_GIFS : gmap string gif)
    (calls : list (string * nat * save_result)) (st : ledger) :
  used_ok ALL_GIFS (used (USAGE_DATA st)) →
  let u := used (USAGE_DATA (pick_all ALL_GIFS calls st).2) in
  NoDup u ∧ (∀ n, n ∈ u → is_Some (ALL_GIFS !! n)) ∧
  (length u ≤ size ALL_GIFS)%nat.
Proof.
  intros Hok. cbv zeta.
  assert (used_ok ALL_GIFS (used (USAGE_DATA (pick_all ALL_GIFS calls st).2)))
    as Hfinal.
  { revert st Hok.
    induction calls as [|[[v r] io] calls IH]; intros st Hok; [done|].
    cbn [pick_all].
    pose proof (pick_used_ok ALL_GIFS r io v st Hok) as H1.
    destruct (pick_gif_for_video ALL_GIFS r io v st) as [g st1].
    specialize (IH st1 H1).
    by destruct (pick_all ALL_GIFS calls st1) as [res st2]. }
  pose proof (used_ok_length _ _ Hfinal) as Hlen.
  destruct Hfinal as [Hnd Hsub].
  split; [done|]. split; [|done].
  intros n Hn. by apply elem_of_gif_names, Hsub.
Qed.

Lemma used_list_stays_consistent_witness :
  used_ok two_gifs (used (USAGE_DATA (restart Missing))) ∧
  (length (used (USAGE_DATA
     (pick_all two_gifs (three_calls ++ three_calls) (restart Missing)).2))
   ≤ size two_gifs)%nat.
Proof.
  assert (used_ok two_gifs (used (USAGE_DATA (restart Missing)))) as Hok.
  { split; [constructor|]. by intros n ?%elem_of_nil. }
  split; [exact Hok|].
  exact (proj2 (proj2 (used_list_stays_consistent two_gifs
                         (three_calls ++ three_calls) (restart Missing) Hok))).
Defined.

(** X2.  A call binds nothing but the identity it was called for, and the
    name it binds is a loaded sticker: every other identity reads the same
    before and after, and if all bound names were loaded before, they are
    after any run of calls.  Within one process the fallback for a missing
    sticker is therefore never taken for a binding the process made. *)
Theorem bindings_stay_loaded (ALL_GIFS : gmap string gif)
    (calls : list (string * nat * save_result)) (st : ledger) :
  bindings_loaded ALL_GIFS st →
  bindings_loaded ALL_GIFS (pick_all ALL_GIFS calls st).2 ∧
  (∀ r io v w,
     w ≠ v →
     bound_name (pick_gif_for_video ALL_GIFS r io v st).2 w = bound_name st w).
Proof.
  intros Hl. split.
  - revert st Hl.
    induction calls as [|[[v r] io] calls IH]; intros st Hl; [done|].
    cbn [pick_all].
    assert (bindings_loaded ALL_GIFS
              (pick_gif_for_video ALL_GIFS r io v st).2) as H1.
    { destruct (bound_name st v) as [m|] eqn:Hv.
      { by rewrite (pick_bound _ _ _ _ _ _ Hv). }
      destruct (decide (ALL_GIFS = ∅)) as [HG|HG].
      { by rewrite (pick_no_gifs _ _ _ _ _ HG Hv). }
      destruct (pick_unbound ALL_GIFS r io v st HG Hv)
        as (c & g & _ & Hg & ->).
      intros w n. unfold bound_name. simpl.
      destruct (decide (v = w)) as [->|Hne].
      - rewrite lookup_insert_eq. intros [= <-]. by eexists.
      - rewrite lookup_insert_ne by done. apply Hl. }
    destruct (pick_gif_for_video ALL_GIFS r io v st) as [g st1].
    specialize (IH st1 H1).
    by destruct (pick_all ALL_GIFS calls st1) as [res st2].
  - intros r io v w Hne. destruct (bound_name st v) as [m|] eqn:Hv.
    { by rewrite (pick_bound _ _ _ _ _ _ Hv). }
    destruct (decide (ALL_GIFS = ∅)) as [HG|HG].
    { by rewrite (pick_no_gifs _ _ _ _ _ HG Hv). }
    destruct (pick_unbound ALL_GIFS r io v st HG Hv) as (c & g & _ & _ & ->).
    unfold bound_name. simpl. by rewrite lookup_insert_ne.
Qed.

Lemma bindings_stay_loaded_witness :
  bindings_loaded two_gifs (restart Missing) ∧
  bindings_loaded two_gifs (pick_all two_gifs three_calls (restart Missing)).2.
Proof.
  assert (bindings_loaded two_gifs (restart Missing)) as Hl.
  { intros v n Hn. vm_compute in Hn. discriminate. }
  split; [exact Hl|].
  exact (proj1 (bindings_stay_loaded two_gifs three_calls (restart Missing) Hl)).
Defined.

(** X3.  What a call hands back is always the frame list of a loaded
    sticker, also when it falls back for a bound name that is not loaded;
    it is the empty list exactly when no sticker is loaded at all, and then
    the ledger and the file are left alone. *)
Theorem pick_returns_loaded_sticker (ALL_GIFS : gmap string gif) (r : nat)
    (io : save_result) (v : string) (st : ledger) :
  let res := pick_gif_for_video ALL_GIFS r io v st in
  (ALL_GIFS ≠ ∅ → ∃ n, ALL_GIFS !! n = Some res.1) ∧
  (ALL_GIFS = ∅ → res = ([], st)).
Proof.
  cbv zeta. split.
  - intros HG. destruct (bound_name st v) as [m|] eqn:Hv.
    + rewrite (pick_bound _ _ _ _ _ _ Hv). simpl.
      destruct (ALL_GIFS !! m) as [g|] eqn:Hm; [by exists m|]. simpl.
      destruct (random_choice_is_Some r (gif_values ALL_GIFS)) as [g Hg].
      { by rewrite gif_values_nil. }
      rewrite Hg. simpl. apply elem_of_gif_values.
      by apply random_choice_elem in Hg.
    + destruct (pick_unbound ALL_GIFS r io v st HG Hv)
        as (c & g & _ & Hg & ->).
      by exists c.
  - intros ->. destruct (bound_name st v) as [m|] eqn:Hv.
    + rewrite (pick_bound _ _ _ _ _ _ Hv). by rewrite lookup_empty.
    + by apply pick_no_gifs.
Qed.

(** X4.  If the file held the ledger to begin with and every save of a run
    of calls is written, the file holds the ledger at the end, so a process
    started on it picks up exactly where this one stands. *)
Theorem saved_ledger_survives_restart (ALL_GIFS : gmap string gif)
    (calls : list (string * nat * save_result)) (st : ledger) :
  persisted st →
  Forall (fun c => c.2 = Written) calls →
  restart (USAGE_FILE (pick_all ALL_GIFS calls st).2)
  = (pick_all ALL_GIFS calls st).2.
Proof.
  intros Hp Hw. apply restart_persisted. revert st Hp.
  induction Hw as [|[[v r] io] calls Hio Hw IH]; intros st Hp; [done|].
  simpl in Hio. subst io. cbn [pick_all].
  pose proof (pick_persisted ALL_GIFS r v st Hp) as H1.
  destruct (pick_gif_for_video ALL_GIFS r Written v st) as [g st1].
  specialize (IH st1 H1).
  by destruct (pick_all ALL_GIFS calls st1) as [res st2].
Qed.

Lemma saved_ledger_survives_restart_witness :
  persisted (restart (Holds fresh_usage)) ∧
  Forall (fun c => c.2 = Written) three_calls ∧
  restart (USAGE_FILE
    (pick_all two_gifs three_calls (restart (Holds fresh_usage))).2)
  = (pick_all two_gifs three_calls (restart (Holds fresh_usage))).2.
Proof.
  assert (persisted (restart (Holds fresh_usage))) as Hp by reflexivity.
  assert (Forall (fun c => c.2 = Written) three_calls) as Hw
    by (repeat constructor).
  split; [exact Hp|]. split; [exact Hw|].
  exact (saved_ledger_survives_restart two_gifs three_calls
           (restart (Holds fresh_usage)) Hp Hw).
Defined.

(** A save that is not written leaves the file behind the ledger: the
    process that starts next does not know the binding. *)
Example torn_save_loses_binding :
  let st := (pick_gif_for_video two_gifs 0 Torn "v" (restart Missing)).2 in
  bound_name st "v" = Some "a.gif" ∧
  bound_name (restart (USAGE_FILE st)) "v" = None.
Proof. vm_compute. done. Qed.

(* ================================================================== *)
(** * Further properties of the overlay helper *)
(* ================================================================== *)

(** The rectangle of the overlay lies inside the frame. *)
Definition fits (bg : frame) (ov : overlay) (x y : Z) : Prop :=
  0 ≤ x ∧ 0 ≤ y ∧
  x + Z.of_nat (shape1 ov) ≤ Z.of_nat (shape1 bg) ∧
  y + Z.of_nat (shape0 ov) ≤ Z.of_nat (shape0 bg).

Lemma overlay_transparent_fits bg ov x y :
  fits bg ov x y →
  overlay_transparent bg ov x y =
  blend_channels [0; 1; 2]%nat bg ov (Z.to_nat x) (Z.to_nat y).
Proof.
  intros (Hx & Hy & Hw & Hh). unfold overlay_transparent.
  destruct (_ || _ || _ || _) eqn:Hchk; [|done].
  repeat (apply orb_prop in Hchk as [Hchk|Hchk]); lia.
Qed.

Lemma overlay_transparent_not_fits bg ov x y :
  ¬ fits bg ov x y → overlay_transparent bg ov x y = Returned bg.
Proof.
  intros Hno. unfold overlay_transparent.
  destruct (_ || _ || _ || _) eqn:Hchk; [done|].
  repeat (apply orb_false_elim in Hchk as [Hchk ?]).
  exfalso. apply Hno. unfold fits. lia.
Qed.

Lemma shape2_write_channel bg ov x y c :
  shape2 (write_channel bg ov x y c) = shape2 bg.
Proof.
  unfold shape2, write_channel. cbv zeta.
  destruct bg as [|row rows]; [done|]. rewrite imap_cons. simpl.
  destruct row as [|px pxs]; [done|]. rewrite imap_cons. simpl.
  destruct (in_rect _ _ _ _ _ _); [|done].
  destruct (ov_at _ _ _); [|done]. by rewrite length_alter.
Qed.

Lemma blend_channels_enough bg ov x y :
  (3 ≤ shape2 bg)%nat →
  blend_channels [0; 1; 2]%nat bg ov x y =
  Returned (write_channel (write_channel (write_channel bg ov x y 0) ov x y 1)
              ov x y 2).
Proof.
  intros H3. simpl. rewrite !shape2_write_channel.
  assert ((0 <? shape2 bg)%nat = true) as -> by (apply Nat.ltb_lt; lia).
  assert ((1 <? shape2 bg)%nat = true) as -> by (apply Nat.ltb_lt; lia).
  assert ((2 <? shape2 bg)%nat = true) as -> by (apply Nat.ltb_lt; lia).
  done.
Qed.

Lemma blend_channels_short bg ov x y :
  (shape2 bg < 3)%nat → ∃ buf, blend_channels [0; 1; 2]%nat bg ov x y = Raised buf.
Proof.
  intros H3. simpl. rewrite !shape2_write_channel.
  destruct (0 <? shape2 bg)%nat eqn:H0; [|by eexists].
  destruct (1 <? shape2 bg)%nat eqn:H1; [|by eexists].
  destruct (2 <? shape2 bg)%nat eqn:H2; [|by eexists].
  apply Nat.ltb_lt in H2. lia.
Qed.

Lemma overlay_transparent_raised_channels bg ov x y :
  (∃ buf, overlay_transparent bg ov x y = Raised buf) → (shape2 bg < 3)%nat.
Proof.
  intros [buf Hr].
  destruct (decide (fits bg ov x y)) as [Hf|Hf].
  - rewrite overlay_transparent_fits in Hr by done.
    destruct (decide (shape2 bg < 3)%nat) as [|Hge]; [done|].
    rewrite blend_channels_enough in Hr by lia. done.
  - by rewrite overlay_transparent_not_fits in Hr.
Qed.

(** X5.  The helper raises in one situation only: the overlay fits into
    the frame and the frame has fewer than three channels.  On a frame
    with three or more channels it always returns, and when the overlay
    does not fit it returns the frame as it is whatever the channels. *)
Theorem overlay_transparent_raises_iff (bg : frame) (ov : overlay) (x y : Z) :
  (∃ buf, overlay_transparent bg ov x y = Raised buf)
  ↔ fits bg ov x y ∧ (shape2 bg < 3)%nat.
Proof.
  split.
  - intros [buf Hr].
    destruct (decide (fits bg ov x y)) as [Hf|Hf].
    + split; [done|]. rewrite overlay_transparent_fits in Hr by done.
      destruct (decide (shape2 bg < 3)%nat) as [|Hge]; [done|].
      rewrite blend_channels_enough in Hr by lia. done.
    + by rewrite overlay_transparent_not_fits in Hr.
  - intros [Hf H3]. rewrite overlay_transparent_fits by done.
    by apply blend_channels_short.
Qed.

(** The three colour channels of a frame pixel blended with an overlay
    pixel; used below at alpha 0 and 255 and for the shape of the pixel. *)
Definition blend_pixel (o : bgra) (px : pixel) : pixel :=
  alter (blend (ov_a o) (ov_r o)) 2%nat
    (alter (blend (ov_a o) (ov_g o)) 1%nat
       (alter (blend (ov_a o) (ov_b o)) 0%nat px)).

Lemma blend_opaque (o b : Z) : blend 255 o b = o.
Proof.
  unfold blend. rewrite <- (Qfloor_Z o) at 2. apply Qfloor_comp.
  change (inject_Z 255) with 255%Q. field.
Qed.

Lemma blend_clear (o b : Z) : blend 0 o b = b.
Proof.
  unfold blend. rewrite <- (Qfloor_Z b) at 2. apply Qfloor_comp.
  change (inject_Z 0) with 0%Q. field.
Qed.

(** X6.  Inside the rectangle of an overlay that fits, on a frame with
    three or more channels, the call returns, and the pixel under overlay
    pixel [o] keeps its number of channels and every channel beyond the
    third.  Where [o] is opaque (alpha 255) its first three channels come
    out as exactly those of [o]; where [o] is clear (alpha 0) the pixel is
    what it was. *)
Theorem overlay_transparent_inside (bg : frame) (ov : overlay) (x y : Z)
    (r c : nat) (px : pixel) (o : bgra) :
  fits bg ov x y → (3 ≤ shape2 bg)%nat →
  pixel_at bg r c = Some px →
  y ≤ Z.of_nat r → x ≤ Z.of_nat c →
  Z.of_nat c < x + Z.of_nat (shape1 ov) →
  ov_at ov (r - Z.to_nat y) (c - Z.to_nat x) = Some o →
  ∃ out px',
    overlay_transparent bg ov x y = Returned out ∧
    pixel_at out r c = Some px' ∧
    length px' = length px ∧
    drop 3 px' = drop 3 px ∧
    (ov_a o = 255 →
     ∀ b g rd rest, px = b :: g :: rd :: rest →
                    px' = ov_b o :: ov_g o :: ov_r o :: rest) ∧
    (ov_a o = 0 → px' = px).
Proof.
  intros Hf H3 Hpx Hy Hx Hc Ho. destruct Hf as (Hx0 & Hy0 & Hw & Hh).
  eexists. exists (blend_pixel o px). split.
  { rewrite overlay_transparent_fits by (unfold fits; lia).
    by apply blend_channels_enough. }
  assert (in_rect (Z.to_nat x) (Z.to_nat y) (shape1 ov) (shape0 ov) r c = true)
    as Hin.
  { unfold in_rect. unfold ov_at in Ho.
    destruct (ov !! (r - Z.to_nat y)%nat) as [row|] eqn:Hrow; [|done].
    apply lookup_lt_Some in Hrow. unfold shape0.
    repeat (apply andb_true_intro; split);
      first [apply Nat.leb_le | apply Nat.ltb_lt]; lia. }
  split; [|split; [|split; [|split]]].
  - rewrite !pixel_at_write_channel, Hpx, Hin, Ho. done.
  - unfold blend_pixel. by rewrite !length_alter.
  - unfold blend_pixel. by rewrite !drop_alter_lt by lia.
  - intros Ha b g rd rest ->. unfold blend_pixel. rewrite Ha. simpl.
    by rewrite !blend_opaque.
  - intros Ha. unfold blend_pixel. rewrite Ha.
    rewrite !list_alter_id; [done|intros; apply blend_clear..].
Qed.

Lemma overlay_transparent_inside_witness :
  let bg : frame := [[[1; 2; 3]; [4; 5; 6]]; [[7; 8; 9]; [10; 11; 12]]] in
  let ov : overlay := [[BGRA 200 100 50 255]] in
  fits bg ov 1 1 ∧
  ∃ out, overlay_transparent bg ov 1 1 = Returned out ∧
         pixel_at out 1 1 = Some [200; 100; 50].
Proof.
  cbv zeta.
  assert (fits [[[1; 2; 3]; [4; 5; 6]]; [[7; 8; 9]; [10; 11; 12]]]
               [[BGRA 200 100 50 255]] 1 1) as Hf
    by (unfold fits, shape0, shape1; simpl; lia).
  split; [exact Hf|].
  destruct (overlay_transparent_inside
              [[[1; 2; 3]; [4; 5; 6]]; [[7; 8; 9]; [10; 11; 12]]]
              [[BGRA 200 100 50 255]] 1 1 1 1 [10; 11; 12]
              (BGRA 200 100 50 255) Hf)
    as (out & px' & Hout & Hpx & _ & _ & Hopaque & _);
    [unfold shape2; simpl; lia|reflexivity|lia|lia
    |unfold shape1; simpl; lia|reflexivity|].
  exists out. split; [exact Hout|].
  rewrite Hpx. f_equal. exact (Hopaque eq_refl 10 11 12 [] eq_refl).
Defined.

Lemma imap_same {A} (f : nat → A → A) (l : list A) :
  (∀ i a, f i a = a) → imap f l = l.
Proof.
  revert f. induction l as [|a l IH]; intros f Hf; [done|].
  rewrite imap_cons, Hf. f_equal. apply IH. intros i b. apply Hf.
Qed.

(** X7.  An overlay whose pixels are all clear (alpha 0) is invisible:
    whatever its size and position, and however the call ends, the frame
    is bit for bit what it was. *)
Theorem clear_overlay_is_invisible (bg : frame) (ov : overlay) (x y : Z) :
  Forall (Forall (fun o => ov_a o = 0)) ov →
  buffer_after (overlay_transparent bg ov x y) = bg.
Proof.
  intros Hclear.
  assert (∀ f x0 y0 c, write_channel f ov x0 y0 c = f) as Hw.
  { intros f x0 y0 c. unfold write_channel. cbv zeta.
    apply imap_same. intros i row. apply imap_same. intros j px.
    destruct (in_rect _ _ _ _ _ _); [|done].
    destruct (ov_at ov (i - y0) (j - x0)) as [o|] eqn:Ho; [|done].
    unfold ov_at in Ho.
    destruct (ov !! (i - y0)%nat) as [orow|] eqn:Hrow; [|done].
    simpl in Ho. rewrite Forall_forall in Hclear.
    pose proof (Hclear orow (list_elem_of_lookup_2 _ _ _ Hrow)) as Hrow0.
    rewrite Forall_forall in Hrow0.
    rewrite (Hrow0 o (list_elem_of_lookup_2 _ _ _ Ho)).
    apply list_alter_id. intros b. apply blend_clear. }
  unfold overlay_transparent.
  destruct (_ || _ || _ || _); [done|]. simpl. rewrite !Hw.
  by repeat (destruct (_ <? _)%nat).
Qed.

Lemma clear_overlay_is_invisible_witness :
  Forall (Forall (fun o => ov_a o = 0)) [[BGRA 200 100 50 0]] ∧
  buffer_after (overlay_transparent black13 [[BGRA 200 100 50 0]] 3 4)
  = black13.
Proof.
  assert (Forall (Forall (fun o => ov_a o = 0)) [[BGRA 200 100 50 0]]) as Hc
    by (repeat constructor).
  split; [exact Hc|].
  exact (clear_overlay_is_invisible black13 [[BGRA 200 100 50 0]] 3 4 Hc).
Defined.

(* ================================================================== *)
(** * Further properties of the sticker plugin *)
(* ================================================================== *)

Lemma overlay_transparent_same_dims bg ov x y :
  same_dims (buffer_after (overlay_transparent bg ov x y)) bg.
Proof.
  unfold overlay_transparent.
  destruct (_ || _ || _ || _); [apply same_dims_refl|].
  apply (blend_channels_frame [0; 1; 2]%nat). repeat constructor.
Qed.

Lemma apply_effect_frame_same_dims ALL_GIFS r io f frame_idx fps video_id st :
  same_dims
    (buffer_after
       (apply_effect_frame ALL_GIFS r io f frame_idx fps video_id st).1) f.
Proof.
  unfold apply_effect_frame.
  destruct (decide (ALL_GIFS = ∅)); [apply same_dims_refl|].
  destruct (pick_gif_for_video ALL_GIFS r io video_id st) as [gfs st'].
  destruct gfs as [|g0 gfs]; [apply same_dims_refl|].
  destruct (fps =? 0); [apply same_dims_refl|].
  destruct (gif_idx _ _ _) as [i|]; [|apply same_dims_refl].
  destruct (_ !! i) as [ov|]; [|apply same_dims_refl].
  destruct (place f ov) as [x y]. apply overlay_transparent_same_dims.
Qed.

(** The ledger after a plugin call is the ledger after the selection. *)
Lemma apply_effect_frame_ledger ALL_GIFS r io f frame_idx fps video_id st :
  (apply_effect_frame ALL_GIFS r io f frame_idx fps video_id st).2 =
  (pick_gif_for_video ALL_GIFS r io video_id st).2.
Proof.
  unfold apply_effect_frame.
  destruct (decide (ALL_GIFS = ∅)) as [HG|HG].
  { simpl. by rewrite pick_state_no_gifs. }
  destruct (pick_gif_for_video ALL_GIFS r io video_id st) as [gfs st'].
  destruct gfs as [|g0 gfs]; [done|].
  destruct (fps =? 0); [done|].
  destruct (gif_idx _ _ _) as [i|]; [|done].
  destruct (_ !! i) as [ov|]; [|done].
  by destruct (place f ov) as [x y].
Qed.

(** A second selection for the same job changes nothing. *)
Lemma pick_state_idem ALL_GIFS r io r' io' v st :
  (pick_gif_for_video ALL_GIFS r' io' v
     (pick_gif_for_video ALL_GIFS r io v st).2).2
  = (pick_gif_for_video ALL_GIFS r io v st).2.
Proof.
  destruct (bound_name st v) as [m|] eqn:Hv.
  { rewrite (pick_bound _ _ _ _ _ _ Hv). simpl.
    by rewrite (pick_bound _ _ _ _ _ _ Hv). }
  destruct (decide (ALL_GIFS = ∅)) as [HG|HG].
  { by rewrite !pick_state_no_gifs. }
  destruct (pick_unbound ALL_GIFS r io v st HG Hv) as (c & g & _ & _ & ->).
  simpl. erewrite pick_bound; [done|]. apply lookup_insert_eq.
Qed.

(** X8.  How a call of the sticker plugin can end.  It never changes the
    dimensions of the frame.  With a frame rate other than zero and a frame
    of three or more channels it returns.  With a frame rate of zero and a
    sticker selected it raises (division by zero) with the frame untouched,
    but only after the selection ran: the job is bound in the ledger. *)
Theorem apply_effect_frame_outcome (ALL_GIFS : gmap string gif) (r : nat)
    (io : save_result) (f : frame) (frame_idx fps : Z) (video_id : string)
    (st : ledger) :
  let picked := pick_gif_for_video ALL_GIFS r io video_id st in
  let res := apply_effect_frame ALL_GIFS r io f frame_idx fps video_id st in
  same_dims (buffer_after res.1) f ∧
  (fps ≠ 0 → (3 ≤ shape2 f)%nat → ∃ out, res.1 = Returned out) ∧
  (fps = 0 → picked.1 ≠ [] →
   res = (Raised f, picked.2) ∧ is_Some (bound_name res.2 video_id)).
Proof.
  cbv zeta. split; [apply apply_effect_frame_same_dims|]. split.
  - intros Hfps H3. unfold apply_effect_frame.
    destruct (decide (ALL_GIFS = ∅)); [by eexists|].
    destruct (pick_gif_for_video ALL_GIFS r io video_id st) as [gfs st'].
    destruct gfs as [|g0 gfs]; [by eexists|].
    apply Z.eqb_neq in Hfps. rewrite Hfps.
    destruct (gif_idx frame_idx fps (length (g0 :: gfs))) as [i|] eqn:Hi;
      [|by eexists].
    apply gif_idx_bound in Hi; [|simpl; lia].
    apply lookup_lt_is_Some in Hi as [ov Hov]. rewrite Hov.
    destruct (place f ov) as [x y]. simpl.
    destruct (overlay_transparent f ov x y) as [out|buf] eqn:Ho; [by eexists|].
    assert (∃ b, overlay_transparent f ov x y = Raised b) as Hr by by eexists.
    apply overlay_transparent_raised_channels in Hr. lia.
  - intros -> Hne.
    assert (ALL_GIFS ≠ ∅) as HG.
    { intros ->. apply Hne.
      destruct (bound_name st video_id) as [m|] eqn:Hv.
      - rewrite (pick_bound _ _ _ _ _ _ Hv). by rewrite lookup_empty.
      - by rewrite pick_no_gifs. }
    assert (is_Some (bound_name
              (pick_gif_for_video ALL_GIFS r io video_id st).2 video_id)) as Hb.
    { destruct (bound_name st video_id) as [m|] eqn:Hv.
      - rewrite (pick_bound _ _ _ _ _ _ Hv). simpl. by rewrite Hv.
      - destruct (pick_unbound ALL_GIFS r io video_id st HG Hv)
          as (c & g & _ & _ & ->).
        unfold bound_name. simpl. rewrite lookup_insert_eq. by eexists. }
    unfold apply_effect_frame. rewrite decide_False by done.
    destruct (pick_gif_for_video ALL_GIFS r io video_id st) as [gfs st'].
    simpl in *. destruct gfs as [|g0 gfs]; [done|]. simpl. done.
Qed.

Lemma apply_effect_frame_outcome_witness :
  0 = 0 ∧
  (pick_gif_for_video one_gif 0 Written "video_1.mp4" (restart Missing)).1 ≠ [] ∧
  apply_effect_frame one_gif 0 Written black13 30 0 "video_1.mp4"
    (restart Missing)
  = (Raised black13,
     (pick_gif_for_video one_gif 0 Written "video_1.mp4" (restart Missing)).2).
Proof.
  assert ((pick_gif_for_video one_gif 0 Written "video_1.mp4"
             (restart Missing)).1 ≠ []) as Hne by (vm_compute; discriminate).
  split; [reflexivity|]. split; [exact Hne|].
  exact (proj1 (proj2 (proj2
    (apply_effect_frame_outcome one_gif 0 Written black13 30 0 "video_1.mp4"
       (restart Missing))) eq_refl Hne)).
Defined.

(** The frames of [create_video] as the sticker plugin sees them. *)
Lemma write_frames_sticker_ledger ALL_GIFS r io enc img fps video_id
    audio_name idxs st :
  (write_frames [sticker_effect ALL_GIFS r io] enc img fps video_id
     audio_name idxs st).1.2
  = match idxs with
    | [] => st
    | _ => (pick_gif_for_video ALL_GIFS r io video_id st).2
    end.
Proof.
  revert st. induction idxs as [|i idxs IH]; intros st; [done|].
  cbn [write_frames]. unfold render_frame. cbn [apply_effects].
  unfold sticker_effect at 1. cbn [ctx_frame_idx ctx_fps ctx_video_id].
  pose proof (apply_effect_frame_ledger ALL_GIFS r io img (Z.of_nat i) fps
                video_id st) as Hl.
  destruct (apply_effect_frame ALL_GIFS r io img (Z.of_nat i) fps video_id st)
    as [[out|buf] st1]; simpl in Hl; subst st1; simpl.
  - destruct (write_ok enc i); [|done].
    specialize (IH (pick_gif_for_video ALL_GIFS r io video_id st).2).
    destruct (write_frames _ enc img fps video_id audio_name idxs _)
      as [[ok s2] evs].
    simpl in *. rewrite IH. destruct idxs; [done|]. apply pick_state_idem.
  - destruct (write_ok enc i); [|done].
    specialize (IH (pick_gif_for_video ALL_GIFS r io video_id st).2).
    destruct (write_frames _ enc img fps video_id audio_name idxs _)
      as [[ok s2] evs].
    simpl in *. rewrite IH. destruct idxs; [done|]. apply pick_state_idem.
Qed.

(** X9.  One selection per video.  However many frames a job has and
    however the subprocess behaves, [create_video] with the sticker plugin
    leaves the ledger either as it was (no frame was rendered) or as the one
    selection for this job leaves it: the sticker is chosen while the first
    frame is rendered, and no later frame selects or saves again.  A job
    that returns [True] has gone through that selection. *)
Theorem create_video_selects_once (ALL_GIFS : gmap string gif) (r : nat)
    (io : save_result) (enc : encoder) (img : option frame) (audio : probe)
    (captions : bool) (fps : Z) (video_id audio_name : string) (st : ledger) :
  let res :=
    create_video [sticker_effect ALL_GIFS r io] enc img audio captions fps
      video_id audio_name st in
  let chosen := (pick_gif_for_video ALL_GIFS r io video_id st).2 in
  (res.1.2 = st ∨ res.1.2 = chosen) ∧
  (res.1.1 = true → res.1.2 = chosen) ∧
  (∀ r' io' f frame_idx fps',
     (apply_effect_frame ALL_GIFS r' io' f frame_idx fps' video_id chosen).2
     = chosen).
Proof.
  cbv zeta.
  assert (∀ r' io' f frame_idx fps',
     (apply_effect_frame ALL_GIFS r' io' f frame_idx fps' video_id
        (pick_gif_for_video ALL_GIFS r io video_id st).2).2
     = (pick_gif_for_video ALL_GIFS r io video_id st).2) as Hlater.
  { intros. rewrite apply_effect_frame_ledger. apply pick_state_idem. }
  split; [|split; [|exact Hlater]]; unfold create_video.
  - destruct img as [base|]; [|by left].
    destruct audio as [|d]; [by left|].
    destruct (total_frames d fps <=? 0); [by left|].
    destruct (spawn_ok enc); simpl; [|by left].
    pose proof (write_frames_sticker_ledger ALL_GIFS r io enc base fps
                  video_id audio_name (seq 0 (Z.to_nat (total_frames d fps)))
                  st) as Hs.
    destruct (write_frames _ enc base fps video_id audio_name _ st)
      as [[ok s1] evs].
    simpl in Hs.
    assert (s1 = st ∨ s1 = (pick_gif_for_video ALL_GIFS r io video_id st).2)
      as Hcase by (destruct (seq _ _); [by left|by right]).
    destruct ok; simpl; [|done].
    destruct (close_ok enc); simpl; [|done].
    destruct (wait_result enc) as [rc|]; [|done].
    by destruct (rc =? 0).
  - destruct img as [base|]; [|done].
    destruct audio as [|d]; [done|].
    destruct (total_frames d fps <=? 0) eqn:Hn; [done|].
    apply Z.leb_gt in Hn.
    destruct (spawn_ok enc); simpl; [|done].
    pose proof (write_frames_sticker_ledger ALL_GIFS r io enc base fps
                  video_id audio_name (seq 0 (Z.to_nat (total_frames d fps)))
                  st) as Hs.
    destruct (write_frames _ enc base fps video_id audio_name _ st)
      as [[ok s1] evs].
    simpl in Hs.
    assert (s1 = (pick_gif_for_video ALL_GIFS r io video_id st).2) as Hs1.
    { rewrite Hs. destruct (Z.to_nat (total_frames d fps)) eqn:Hz; [lia|].
      done. }
    destruct ok; simpl; [|done].
    destruct (close_ok enc); simpl; [|done].
    destruct (wait_result enc) as [rc|]; [|done].
    by destruct (rc =? 0).
Qed.

(** ** Frame dimensions through the compositor *)

(** An effect that never changes the dimensions of the buffer it gets,
    whether it returns or raises. *)
Definition keeps_shape {St} (e : effect St) : Prop :=
  ∀ fr ctx s, same_dims (buffer_after (e fr ctx s).1) fr.

Lemma sticker_effect_keeps_shape ALL_GIFS r io :
  keeps_shape (sticker_effect ALL_GIFS r io).
Proof. intros fr ctx s. apply apply_effect_frame_same_dims. Qed.

Lemma apply_effects_keeps_shape {St} (effects : list (effect St)) k ctx fr s :
  Forall keeps_shape effects →
  same_dims (apply_effects effects k ctx fr s).1.1 fr.
Proof.
  intros Hall. revert k fr s.
  induction Hall as [|e effects He Hall IH]; intros k fr s; simpl.
  { apply same_dims_refl. }
  specialize (He fr ctx s).
  destruct (e fr ctx s) as [[fr'|buf] s']; simpl in He.
  - eapply same_dims_trans; [apply IH|exact He].
  - specialize (IH (S k) buf s').
    destruct (apply_effects effects (S k) ctx buf s') as [[out s''] log].
    simpl in *. eapply same_dims_trans; [exact IH|exact He].
Qed.

Lemma write_frames_keeps_shape {St} (effects : list (effect St)) enc img fps
    video_id audio_name idxs s :
  Forall keeps_shape effects →
  Forall (fun e => ∀ i fr, e = EvWrite i fr → same_dims fr img)
    (write_frames effects enc img fps video_id audio_name idxs s).2.
Proof.
  intros Hall. revert s. induction idxs as [|i idxs IH]; intros s; simpl.
  { constructor. }
  pose proof (apply_effects_keeps_shape effects 0
                (FrameContext i fps video_id audio_name) img s Hall) as Hd.
  unfold render_frame.
  destruct (apply_effects effects 0 _ img s) as [[fr s1] log]. simpl in Hd.
  destruct (write_ok enc i); [|constructor].
  specialize (IH s1).
  destruct (write_frames effects enc img fps video_id audio_name idxs s1)
    as [[ok s2] evs].
  simpl in *. constructor; [|done]. by intros j fr' [= _ <-].
Qed.

(** X10.  No frame of a video is resized on the way to the encoder: when
    every effect in the list keeps the dimensions of the buffer it is given
    (as the sticker plugin does), every frame [create_video] writes has the
    number of rows, the row lengths and the channel counts of the base
    image, also the frames an effect raised on. *)
Theorem written_frames_keep_shape {St : Type} (effects : list (effect St))
    (enc : encoder) (base : frame) (audio : probe) (captions : bool)
    (fps : Z) (video_id audio_name : string) (s : St) (i : nat) (fr : frame) :
  Forall keeps_shape effects →
  EvWrite i fr ∈
    (create_video effects enc (Some base) audio captions fps video_id
       audio_name s).2 →
  same_dims fr base.
Proof.
  intros Hall. unfold create_video.
  destruct audio as [|d]; [by intros ?%elem_of_nil|].
  destruct (total_frames d fps <=? 0); [by intros ?%elem_of_nil|].
  destruct (spawn_ok enc); simpl.
  2:{ intros [?|?%elem_of_nil]%elem_of_cons; done. }
  pose proof (write_frames_keeps_shape effects enc base fps video_id
                audio_name (seq 0 (Z.to_nat (total_frames d fps))) s Hall) as Hw.
  destruct (write_frames effects enc base fps video_id audio_name _ s)
    as [[ok s1] evs].
  simpl in Hw. rewrite Forall_forall in Hw.
  assert (EvWrite i fr ∈ evs → same_dims fr base) as Hin.
  { intros Hin. by apply (Hw _ Hin i fr). }
  destruct ok; simpl.
  2:{ intros [?|[?|Hl]%elem_of_app]%elem_of_cons; [done|auto|].
      apply list_elem_of_singleton in Hl. done. }
  destruct (close_ok enc); simpl.
  2:{ intros [?|[?|Hl]%elem_of_app]%elem_of_cons; [done|auto|].
      repeat (apply elem_of_cons in Hl as [?|Hl]; [done|]).
      by apply elem_of_nil in Hl. }
  destruct (wait_result enc) as [rc|]; [destruct (rc =? 0)|]; simpl;
    (intros [?|[?|Hl]%elem_of_app]%elem_of_cons; [done|auto|];
     repeat (apply elem_of_cons in Hl as [?|Hl]; [done|]);
     by apply elem_of_nil in Hl).
Qed.

Lemma written_frames_keep_shape_witness :
  Forall keeps_shape [sticker_effect one_gif 0 Written] ∧
  EvWrite 0 black13 ∈
    (create_video [sticker_effect one_gif 0 Written] good_encoder
       (Some black13) (Duration (1 # 10)) true 10 "video_1.mp4" "song"
       (restart Missing)).2 ∧
  same_dims black13 black13.
Proof.
  assert (Forall keeps_shape [sticker_effect one_gif 0 Written]) as Hall.
  { constructor; [apply sticker_effect_keeps_shape|constructor]. }
  assert (EvWrite 0 black13 ∈
    (create_video [sticker_effect one_gif 0 Written] good_encoder
       (Some black13) (Duration (1 # 10)) true 10 "video_1.mp4" "song"
       (restart Missing)).2) as Hin.
  { vm_compute. right. left. }
  split; [exact Hall|]. split; [exact Hin|].
  exact (written_frames_keep_shape [sticker_effect one_gif 0 Written]
           good_encoder black13 (Duration (1 # 10)) true 10 "video_1.mp4"
           "song" (restart Missing) 0 black13 Hall Hin).
Defined.

(* ================================================================== *)
(** * Further properties of the encoder bridge *)
(* ================================================================== *)

(** The loop stops at the first write that fails: the frames before it
    were handed over, nothing after it is rendered or written. *)
Lemma write_frames_first_failure {St} (effects : list (effect St)) enc img
    fps video_id audio_name l1 k l2 s :
  (∀ i, i ∈ l1 → write_ok enc i = true) → write_ok enc k = false →
  let res := write_frames effects enc img fps video_id audio_name
               (l1 ++ k :: l2) s in
  res.1.1 = false ∧ written res.2 = l1.
Proof.
  intros Hok Hk. revert s. induction l1 as [|i l1 IH]; intros s; simpl.
  { destruct (render_frame effects img _ s) as [[fr s1] log].
    by rewrite Hk. }
  destruct (render_frame effects img _ s) as [[fr s1] log].
  rewrite Hok by left.
  destruct (IH (fun j Hj => Hok j (list_elem_of_further _ _ _ Hj)) s1)
    as [Hf Hw].
  destruct (write_frames effects enc img fps video_id audio_name
              (l1 ++ k :: l2) s1) as [[ok s2] evs].
  simpl in *. split; [done|]. unfold written in *. simpl. by rewrite Hw.
Qed.

(** X11.  A write that fails in the middle of a job ends it: when the
    subprocess took the frames before index [k] and refuses frame [k],
    [create_video] returns [False], frames 0 to [k-1] are the only ones
    handed over, in order, the subprocess is killed last, and the pipe is
    neither closed nor waited on. *)
Theorem create_video_write_failure {St : Type} (effects : list (effect St))
    (enc : encoder) (base : frame) (d : Q) (captions : bool) (fps : Z)
    (video_id audio_name : string) (s : St) (k : nat) :
  spawn_ok enc = true →
  (k < Z.to_nat (total_frames d fps))%nat →
  (∀ i, (i < k)%nat → write_ok enc i = true) →
  write_ok enc k = false →
  let res := create_video effects enc (Some base) (Duration d) captions fps
               video_id audio_name s in
  res.1.1 = false ∧
  written res.2 = seq 0 k ∧
  last res.2 = Some EvKill ∧
  (EvClose ∉ res.2) ∧ (EvWait ∉ res.2).
Proof.
  intros Hsp Hk Hok Hfail. cbv zeta. unfold create_video.
  assert (0 < total_frames d fps) as Hn by lia.
  apply Z.leb_gt in Hn. rewrite Hn, Hsp. simpl.
  set (n := Z.to_nat (total_frames d fps)) in *.
  assert (seq 0 n = seq 0 k ++ k :: seq (S k) (n - S k)) as Hsplit.
  { replace n with (k + S (n - S k))%nat at 1 by lia.
    rewrite seq_app. simpl. done. }
  rewrite Hsplit.
  pose proof (write_frames_first_failure effects enc base fps video_id
                audio_name (seq 0 k) k (seq (S k) (n - S k)) s) as Hw.
  pose proof (write_frames_written effects enc base fps video_id audio_name
                (seq 0 k ++ k :: seq (S k) (n - S k)) s) as (_ & _ & Hall).
  destruct Hw as [Hf Hwr]; [|done|].
  { intros i Hi. apply Hok. apply elem_of_seq in Hi. lia. }
  destruct (write_frames effects enc base fps video_id audio_name _ s)
    as [[ok s1] evs].
  simpl in *. subst ok. simpl.
  rewrite Forall_forall in Hall.
  split; [done|]. split; [|split; [|split]].
  - change (written ([EvSpawn captions] ++ evs ++ [EvKill]) = seq 0 k).
    rewrite !written_app. simpl. by rewrite Hwr, app_nil_r.
  - change (last ((EvSpawn captions :: evs) ++ [EvKill]) = Some EvKill).
    apply last_snoc.
  - intros [?|[Hin|Hin]%elem_of_app]%elem_of_cons; [done| |].
    + by destruct (Hall _ Hin) as (? & ? & ?).
    + by apply list_elem_of_singleton in Hin.
  - intros [?|[Hin|Hin]%elem_of_app]%elem_of_cons; [done| |].
    + by destruct (Hall _ Hin) as (? & ? & ?).
    + by apply list_elem_of_singleton in Hin.
Qed.

(** An encoder that takes two frames and then breaks the pipe. *)
Definition broken_pipe_encoder : encoder :=
  Encoder true (fun i => (i <? 2)%nat) true (Exited 0).

Lemma create_video_write_failure_witness :
  spawn_ok broken_pipe_encoder = true ∧
  (2 < Z.to_nat (total_frames (1 # 2) 10))%nat ∧
  (∀ i, (i < 2)%nat → write_ok broken_pipe_encoder i = true) ∧
  write_ok broken_pipe_encoder 2 = false ∧
  written (create_video [identity_effect] broken_pipe_encoder
             (Some [[[1; 2; 3]]]) (Duration (1 # 2)) true 10 "video_1.mp4"
             "song" tt).2 = seq 0 2.
Proof.
  assert (spawn_ok broken_pipe_encoder = true) as Hsp by reflexivity.
  assert (2 < Z.to_nat (total_frames (1 # 2) 10))%nat as Hk
    by (vm_compute; lia).
  assert (∀ i, (i < 2)%nat → write_ok broken_pipe_encoder i = true) as Hok.
  { intros i Hi. simpl. by apply Nat.ltb_lt. }
  assert (write_ok broken_pipe_encoder 2 = false) as Hf by reflexivity.
  split; [exact Hsp|]. split; [exact Hk|]. split; [exact Hok|].
  split; [exact Hf|].
  exact (proj1 (proj2
    (create_video_write_failure [identity_effect] broken_pipe_encoder
       [[[1; 2; 3]]] (1 # 2) true 10 "video_1.mp4" "song" tt 2
       Hsp Hk Hok Hf))).
Defined.

(** X12.  When the image cannot be read, the duration cannot be probed or
    the subprocess cannot be started, [create_video] returns [False]
    without running any effect (the plugin state is untouched), without
    writing a frame and without killing anything. *)
Theorem create_video_not_started {St : Type} (effects : list (effect St))
    (enc : encoder) (img : option frame) (audio : probe) (captions : bool)
    (fps : Z) (video_id audio_name : string) (s : St) :
  img = None ∨ audio = ProbeFailed ∨ spawn_ok enc = false →
  let res := create_video effects enc img audio captions fps video_id
               audio_name s in
  res.1 = (false, s) ∧ written res.2 = [] ∧ EvKill ∉ res.2.
Proof.
  intros Hcase. cbv zeta. unfold create_video.
  destruct img as [base|]; [|split; [done|split; [done|set_solver]]].
  destruct audio as [|d]; [split; [done|split; [done|set_solver]]|].
  destruct (total_frames d fps <=? 0);
    [split; [done|split; [done|set_solver]]|].
  destruct Hcase as [?|[?|Hsp]]; [done..|]. rewrite Hsp. simpl.
  split; [done|]. split; [done|]. set_solver.
Qed.

Lemma create_video_not_started_witness :
  (@None frame = None ∨ Duration (3 # 10) = ProbeFailed
   ∨ spawn_ok good_encoder = false) ∧
  (create_video [scribble] good_encoder None (Duration (3 # 10)) true 10
     "video_1.mp4" "song" tt).1 = (false, tt).
Proof.
  assert (@None frame = None ∨ Duration (3 # 10) = ProbeFailed
          ∨ spawn_ok good_encoder = false) as Hc by by left.
  split; [exact Hc|].
  exact (proj1 (create_video_not_started [scribble] good_encoder None
                  (Duration (3 # 10)) true 10 "video_1.mp4" "song" tt Hc)).
Defined.

(** X13.  Without effects every frame handed to the encoder is the base
    image itself, bit for bit, and the plugin state is never touched. *)
Theorem create_video_no_effects {St : Type} (enc : encoder)
    (img : option frame) (audio : probe) (captions : bool) (fps : Z)
    (video_id audio_name : string) (s : St) :
  let res := create_video (@nil (effect St)) enc img audio captions fps
               video_id audio_name s in
  res.1.2 = s ∧
  ∀ i fr, EvWrite i fr ∈ res.2 → img = Some fr.
Proof.
  cbv zeta.
  assert (∀ idxs base,
    let w := write_frames (@nil (effect St)) enc base fps video_id
               audio_name idxs s in
    w.1.2 = s ∧ Forall (fun e => ∀ i fr, e = EvWrite i fr → fr = base) w.2)
    as Hw.
  { intros idxs base. cbv zeta.
    induction idxs as [|i idxs IH]; simpl; [by split|].
    destruct (write_ok enc i); [|by split].
    destruct (write_frames [] enc base fps video_id audio_name idxs s)
      as [[ok s2] evs].
    simpl in *. destruct IH as [-> Hall]. split; [done|].
    constructor; [|done]. by intros j fr [= _ <-]. }
  unfold create_video.
  destruct img as [base|]; [|split; [done|by intros i fr ?%elem_of_nil]].
  destruct audio as [|d]; [split; [done|by intros i fr ?%elem_of_nil]|].
  destruct (total_frames d fps <=? 0);
    [split; [done|by intros i fr ?%elem_of_nil]|].
  destruct (spawn_ok enc); simpl.
  2:{ split; [done|]. intros i fr [?|?%elem_of_nil]%elem_of_cons; done. }
  specialize (Hw (seq 0 (Z.to_nat (total_frames d fps))) base).
  destruct (write_frames [] enc base fps video_id audio_name _ s)
    as [[ok s1] evs].
  simpl in Hw. destruct Hw as [-> Hall]. rewrite Forall_forall in Hall.
  assert (∀ i fr tl, (∀ e, e ∈ tl → ∀ j g, e ≠ EvWrite j g) →
            EvWrite i fr ∈ EvSpawn captions :: evs ++ tl → Some base = Some fr)
    as Hin.
  { intros i fr tl Htl [?|[Hin|Hin]%elem_of_app]%elem_of_cons; [done| |].
    - f_equal. symmetry. by apply (Hall _ Hin i fr).
    - by destruct (Htl _ Hin i fr). }
  assert (∀ tl : list event, tl = [EvKill] ∨ tl = [EvClose; EvKill]
            ∨ tl = [EvClose; EvWait] ∨ tl = [EvClose; EvWait; EvKill] →
            ∀ e, e ∈ tl → ∀ j g, e ≠ EvWrite j g) as Htails.
  { intros tl Htl e He j g ->.
    destruct Htl as [ -> | [ -> | [ -> | -> ] ] ];
      repeat (apply elem_of_cons in He as [?|He]; [done|]);
      by apply elem_of_nil in He. }
  destruct ok; simpl.
  2:{ split; [done|]. intros i fr. apply Hin, Htails. by left. }
  destruct (close_ok enc); simpl.
  2:{ split; [done|]. intros i fr. apply Hin, Htails. right. by left. }
  destruct (wait_result enc) as [rc|]; [destruct (rc =? 0)|]; simpl;
    (split; [done|]; intros i fr; apply Hin, Htails); auto.
Qed.

(* ================================================================== *)
(** * Further properties of the orchestrator *)
(* ================================================================== *)

(** The attempt number of a render step. *)
Definition attempt_of (x : step) : option nat :=
  match x with Render k => Some k | _ => None end.

Lemma renders_run_app l1 l2 :
  renders_run (l1 ++ l2) = (renders_run l1 + renders_run l2)%nat.
Proof. unfold renders_run. by rewrite filter_app, length_app. Qed.

Lemma renders_run_render k l : renders_run (Render k :: l) = S (renders_run l).
Proof. reflexivity. Qed.

Lemma renders_run_sleep l : renders_run (Sleep :: l) = renders_run l.
Proof. reflexivity. Qed.

(** The loop after the first attempt, for any number of attempts left. *)
Lemma retry_loop_later caption render left :
  ∀ attempt srt_file,
    (1 ≤ attempt)%nat →
    let res := retry_loop caption render left attempt srt_file in
    let n := renders_run res.2 in
    omap attempt_of res.2 = seq (S attempt) n ∧
    (n ≤ left)%nat ∧
    (Caption ∉ res.2) ∧
    last res.2 ≠ Some Sleep ∧
    (left ≠ 0%nat → res.2 ≠ []) ∧
    res.1.2 = srt_file ∧
    (∀ k, (attempt < k < attempt + n)%nat → render k ≠ Finished true) ∧
    (res.1.1 = true →
     last res.2 = Some (Render (attempt + n)) ∧
     render (attempt + n)%nat = Finished true) ∧
    (res.1.1 = false →
     n = left ∧ (left ≠ 0%nat → render (attempt + n)%nat ≠ Finished true)).
Proof.
  induction left as [|left IH]; intros attempt srt_file Hatt; cbv zeta.
  { simpl. repeat split; try done; try lia.
    - by intros ?%elem_of_nil.
    - intros k Hk. change (renders_run []) with 0%nat in Hk. lia. }
  cbn [retry_loop].
  replace (S attempt =? 1)%nat with false by (symmetry; apply Nat.eqb_neq; lia).
  destruct (render (S attempt)) as [[|]|] eqn:Hr.
  1:{ cbn [app fst snd]. rewrite renders_run_render.
      change (renders_run []) with 0%nat.
      replace (attempt + 1)%nat with (S attempt) by lia.
      repeat split; try done; try lia.
      intros [?|?%elem_of_nil]%elem_of_cons; done. }
  all: assert (render (S attempt) ≠ Finished true) as Hno by by rewrite Hr.
  all: clear Hr.
  all: destruct left as [|left'].
  all: try (cbn [retry_loop app fst snd]; rewrite renders_run_render;
            change (renders_run []) with 0%nat;
            replace (attempt + 1)%nat with (S attempt) by lia;
            repeat split; try done; try lia;
            intros [?|?%elem_of_nil]%elem_of_cons; done).
  all: specialize (IH (S attempt) srt_file ltac:(lia)).
  all: cbv zeta in IH.
  all: destruct (retry_loop caption render (S left') (S attempt) srt_file)
         as [[ok srt] steps].
  all: cbn [fst snd app] in *.
  all: destruct IH as (Hseq & Hle & Hcap & Hlast & Hne & Hsrt & Hmid & Ht & Hf).
  all: rewrite renders_run_render, renders_run_sleep.
  all: specialize (Hne ltac:(done)).
  all: assert (last (Render (S attempt) :: Sleep :: steps) = last steps)
         as Hlast' by (destruct steps; done).
  all: rewrite Hlast'.
  all: replace (attempt + S (renders_run steps))%nat
         with (S attempt + renders_run steps)%nat by lia.
  all: split; [cbn [omap list_omap attempt_of]; by rewrite Hseq|].
  all: split; [lia|].
  all: split;
         [intros [?|[?|?]%elem_of_cons]%elem_of_cons; done|].
  all: split; [done|]. 
  all: split; [done|].
  all: split; [done|].
  all: split;
         [intros k Hk; destruct (decide (k = S attempt)) as [->|];
          [done|apply Hmid; lia]|].
  all: split; [done|].
  all: intros Hok; destruct (Hf Hok) as [Hn Hlastr]; split; [lia|];
       intros _; by apply Hlastr.
Qed.

Lemma captions_run_none l : Caption ∉ l → captions_run l = 0%nat.
Proof.
  intros Hno. unfold captions_run.
  induction l as [|x l IH]; [done|].
  rewrite filter_cons. destruct (decide (x = Caption)) as [->|Hne].
  - exfalso. apply Hno. left.
  - apply IH. intros Hin. apply Hno. by right.
Qed.

(** The first iteration, where the captions are generated. *)
Lemma retry_loop_first p render left :
  retry_loop (Some p) render (S left) 0 None =
  match render 1%nat with
  | Finished true => (true, Some p, [Caption; Render 1])
  | _ =>
      let '(ok, srt, steps) := retry_loop (Some p) render left 1 (Some p) in
      (ok, srt,
       Caption :: Render 1
         :: match left with O => [] | S _ => [Sleep] end ++ steps)
  end.
Proof. cbn [retry_loop Nat.eqb]. by destruct (render 1%nat) as [[|]|]. Qed.

(** X14.  The retry loop for any limit of at least one attempt, with
    captions generated.  The caption step comes first and only once; the
    renders are attempts 1, 2, ... without a gap, at least one and at most
    the limit; every attempt before the last one failed; the pair succeeds
    exactly when the last attempt did, and fails only after the limit is
    used up; the loop never sleeps after its last attempt; and the caption
    path of the first attempt is what the cleanup gets. *)
Theorem retry_loop_any_limit (p : string) (render : nat → render_result)
    (limit : nat) :
  (1 ≤ limit)%nat →
  let res := retry_loop (Some p) render limit 0 None in
  let n := renders_run res.2 in
  head res.2 = Some Caption ∧
  captions_run res.2 = 1%nat ∧
  omap attempt_of res.2 = seq 1 n ∧
  (1 ≤ n ≤ limit)%nat ∧
  last res.2 ≠ Some Sleep ∧
  res.1.2 = Some p ∧
  (∀ k, (1 ≤ k < n)%nat → render k ≠ Finished true) ∧
  (res.1.1 = true ↔ render n = Finished true) ∧
  (res.1.1 = false → n = limit).
Proof.
  intros Hlim. destruct limit as [|left]; [lia|]. cbv zeta.
  rewrite retry_loop_first.
  destruct (render 1%nat) as [[|]|] eqn:Hr.
  1:{ cbn [fst snd]. change (renders_run [Caption; Render 1]) with 1%nat.
      repeat split; try done; try lia. }
  all: assert (render 1%nat ≠ Finished true) as Hno by by rewrite Hr.
  all: clear Hr.
  all: destruct left as [|left'].
  all: try solve [cbn [retry_loop app fst snd];
                  change (renders_run [Caption; Render 1]) with 1%nat;
                  repeat split; try done; try lia].
  all: pose proof (retry_loop_later (Some p) render (S left') 1 (Some p)
                     ltac:(lia)) as IH.
  all: cbv zeta in IH.
  all: destruct (retry_loop (Some p) render (S left') 1 (Some p))
         as [[ok srt] steps].
  all: cbn [fst snd app] in *.
  all: destruct IH as (Hseq & Hle & Hcap & Hlast & Hne & Hsrt & Hmid & Ht & Hf).
  all: specialize (Hne ltac:(done)).
  all: change (renders_run (Caption :: Render 1 :: Sleep :: steps))
         with (S (renders_run steps)).
  all: assert (last (Caption :: Render 1 :: Sleep :: steps) = last steps)
         as Hlast' by (destruct steps; done).
  all: rewrite Hlast'.
  all: split; [done|].
  all: split;
         [change (captions_run (Caption :: Render 1 :: Sleep :: steps))
            with (S (captions_run steps));
          by rewrite captions_run_none|].
  all: split; [cbn [omap list_omap attempt_of]; by rewrite Hseq|].
  all: split; [lia|].
  all: split; [done|].
  all: split; [done|].
  all: split;
         [intros k Hk; destruct (decide (k = 1%nat)) as [->|];
          [done|apply Hmid; lia]|].
  all: split;
         [split;
          [intros Hok; by destruct (Ht Hok)
          |intros Hrn; destruct ok; [done|];
           destruct (Hf eq_refl) as [Hn Hl]; by destruct Hl]
         |intros Hok; destruct (Hf Hok); lia].
Qed.

Lemma retry_loop_any_limit_witness :
  (1 ≤ 5)%nat ∧
  (retry_loop (Some "audio/song.srt") third_time_lucky 5 0 None).2
  = [Caption; Render 1; Sleep; Render 2; Sleep; Render 3] ∧
  last (retry_loop (Some "audio/song.srt") third_time_lucky 5 0 None).2
  ≠ Some Sleep.
Proof.
  assert (1 ≤ 5)%nat as Hl by lia.
  split; [exact Hl|]. split; [reflexivity|].
  exact (proj1 (proj2 (proj2 (proj2 (proj2
    (retry_loop_any_limit "audio/song.srt" third_time_lucky 5 Hl)))))).
Defined.

(** X15.  The counter of finished videos stays below the log interval of
    20 between iterations: a failure leaves it alone, a success adds one,
    and the twentieth success sets it back to zero. *)
Theorem count_processed_bounded (processed_count : nat)
    (video_success : bool) :
  (processed_count < LOG_CLEANUP_INTERVAL)%nat →
  let n := count_processed processed_count video_success in
  (n < LOG_CLEANUP_INTERVAL)%nat ∧
  (video_success = false → n = processed_count) ∧
  (video_success = true →
   n = (S processed_count mod LOG_CLEANUP_INTERVAL)%nat).
Proof.
  unfold count_processed, LOG_CLEANUP_INTERVAL. intros Hlt. cbv zeta.
  destruct video_success.
  - destruct (20 <=? S processed_count)%nat eqn:Hc.
    + apply Nat.leb_le in Hc. assert (processed_count = 19%nat) as -> by lia.
      repeat split; try done; lia.
    + apply Nat.leb_gt in Hc. repeat split; try done.
      intros _. by rewrite Nat.mod_small.
  - destruct (20 <=? processed_count)%nat eqn:Hc.
    + apply Nat.leb_le in Hc. lia.
    + by repeat split.
Qed.

Lemma count_processed_bounded_witness :
  (19 < LOG_CLEANUP_INTERVAL)%nat ∧ count_processed 19 true = 0%nat.
Proof.
  assert (19 < LOG_CLEANUP_INTERVAL)%nat as Hlt
    by (unfold LOG_CLEANUP_INTERVAL; lia).
  split; [exact Hlt|].
  exact (proj2 (proj2 (count_processed_bounded 19 true Hlt)) eq_refl).
Defined.

(** X16.  The cleanup only ever deletes, and only the three files of the
    pair: no file appears, and a file that is not the image, the audio or
    the caption file stays.  When the audio file is already gone at a
    success, the removal of the audio raises and the image is not removed
    either. *)
Theorem final_cleanup_only_removes (fs : gset string)
    (srt_file : option string) (video_success : bool)
    (img_path aud_path : string) :
  let fs' := final_cleanup fs srt_file video_success img_path aud_path in
  fs' ⊆ fs ∧
  (∀ q, q ∈ fs → q ≠ img_path → q ≠ aud_path → srt_file ≠ Some q → q ∈ fs') ∧
  (aud_path ∉ fs → img_path ∈ fs → srt_file ≠ Some img_path →
   img_path ∈ fs').
Proof.
  cbv zeta. unfold final_cleanup, os_remove.
  set (fs1 := match srt_file with
              | Some p => if decide (p ∈ fs) then fs ∖ {[p]} else fs
              | None => fs
              end).
  assert (∀ q, q ∈ fs1 ↔ (q ∈ fs ∧ srt_file ≠ Some q)) as Hfs1.
  { intros q. subst fs1. destruct srt_file as [p|]; [|set_solver].
    destruct (decide (p ∈ fs)); set_solver. }
  destruct video_success.
  - destruct (decide (aud_path ∈ fs1)) as [Ha|Ha]; simpl.
    + destruct (decide (img_path ∈ fs1 ∖ {[aud_path]})) as [Hi|Hi]; simpl.
      * split; [|split].
        -- intros q. rewrite !elem_of_difference, Hfs1. tauto.
        -- intros q ? ? ? ?.
           rewrite !elem_of_difference, !elem_of_singleton, Hfs1. tauto.
        -- intros Hno. exfalso. apply Hno. by apply Hfs1.
      * split; [|split].
        -- intros q. rewrite !elem_of_difference, Hfs1. tauto.
        -- intros q ? ? ? ?.
           rewrite !elem_of_difference, !elem_of_singleton, Hfs1. tauto.
        -- intros Hno. exfalso. apply Hno. by apply Hfs1.
    + split; [|split].
      * intros q. rewrite Hfs1. tauto.
      * intros q ? ? ? ?. rewrite Hfs1. tauto.
      * intros _ ? ?. rewrite Hfs1. tauto.
  - split; [|split].
    + intros q. rewrite Hfs1. tauto.
    + intros q ? ? ? ?. rewrite Hfs1. tauto.
    + intros _ ? ?. rewrite Hfs1. tauto.
Qed.

(** The audio vanished while the video was rendered: the success branch
    gives up at the first removal and the image stays. *)
Example final_cleanup_audio_gone :
  final_cleanup {[ "images/a.png"; "audio/a.srt" ]} (Some "audio/a.srt") true
    "images/a.png" "audio/a.mp3"
  = {[ "images/a.png" ]}.
Proof. compute_done. Qed.

(* ================================================================== *)
(** * The safe caption file name and the even frame size *)
(* ================================================================== *)

(** A Python string as its code points.  The character class
    [[a-zA-Z0-9_.-]] of the rename step in [generate_srt]. *)
Definition name_char_ok (c : N) : bool :=
  ((97 <=? c) && (c <=? 122) || (65 <=? c) && (c <=? 90)
   || (48 <=? c) && (c <=? 57) || (c =? 95) || (c =? 46) || (c =? 45))%N.

(** [re.sub(r"[^a-zA-Z0-9_.-]", "_", name)]: every other character becomes
    an underscore, one for one. *)
Definition safe_name (name : list N) : list N :=
  (fun c => if name_char_ok c then c else 95%N) <$> name.

(** [".srt"] *)
Definition dot_srt : list N := [46; 115; 114; 116]%N.

(** X17.  The safe file name has the length of the original, consists of
    letters, digits, underscore, dot and hyphen only, keeps every such
    character where it was, and keeps the [.srt] ending.  Making a name
    safe twice changes nothing more, and a name is left as it is exactly
    when it was safe already (the case in which no rename happens). *)
Theorem safe_name_properties (name : list N) :
  length (safe_name name) = length name ∧
  Forall (fun c => name_char_ok c = true) (safe_name name) ∧
  (∀ i c, name !! i = Some c → name_char_ok c = true →
          safe_name name !! i = Some c) ∧
  safe_name (name ++ dot_srt) = safe_name name ++ dot_srt ∧
  safe_name (safe_name name) = safe_name name ∧
  (safe_name name = name ↔ Forall (fun c => name_char_ok c = true) name).
Proof.
  unfold safe_name.
  assert (Forall (fun c => name_char_ok c = true)
            ((fun c => if name_char_ok c then c else 95%N) <$> name)) as Hok.
  { apply Forall_fmap, Forall_forall. intros c _. simpl.
    by destruct (name_char_ok c) eqn:Hc. }
  assert (∀ l, Forall (fun c => name_char_ok c = true) l →
               (fun c => if name_char_ok c then c else 95%N) <$> l = l) as Hid.
  { intros l Hl. induction Hl as [|c l Hc Hl IH]; [done|].
    rewrite fmap_cons, Hc. by f_equal. }
  split; [apply length_fmap|]. split; [exact Hok|]. split; [|split; [|split]].
  - intros i c Hi Hc. rewrite list_lookup_fmap, Hi. simpl. by rewrite Hc.
  - by rewrite fmap_app.
  - by apply Hid.
  - split; [intros <-; exact Hok|apply Hid].
Qed.

(** ["my song (1).srt"] becomes ["my_song__1_.srt"]. *)
Example safe_name_spaces :
  safe_name ([109; 121; 32; 115; 111; 110; 103; 32; 40; 49; 41]%N ++ dot_srt)
  = [109; 121; 95; 115; 111; 110; 103; 95; 95; 49; 95]%N ++ dot_srt.
Proof. reflexivity. Qed.

(** [if w % 2 != 0: w -= 1], the same for [h]. *)
Definition even_dim (n : Z) : Z := if n mod 2 =? 0 then n else n - 1.

(** X18.  The width and height passed to the encoder are even, at most
    one less than those of the image, and those of the image when they
    were even already. *)
Theorem even_dim_even (n : Z) :
  even_dim n mod 2 = 0 ∧
  n - 1 ≤ even_dim n ≤ n ∧
  (n mod 2 = 0 → even_dim n = n) ∧
  even_dim (even_dim n) = even_dim n.
Proof.
  assert (∀ m, even_dim m mod 2 = 0) as Hev.
  { intros m. unfold even_dim. destruct (m mod 2 =? 0) eqn:Hm.
    - by apply Z.eqb_eq in Hm.
    - apply Z.eqb_neq in Hm. pose proof (Z.mod_pos_bound m 2).
      rewrite Zminus_mod. replace (m mod 2) with 1 by lia. done. }
  split; [apply Hev|]. split; [|split].
  - unfold even_dim. destruct (n mod 2 =? 0); lia.
  - intros Hn. unfold even_dim. by rewrite Hn.
  - unfold even_dim at 1. by rewrite Hev.
Qed.

(* ================================================================== *)
(** * One pair from the first attempt to the cleanup *)
(* ================================================================== *)

(** The body of the main loop for one discovered pair: the retry loop, then
    the cleanup on the files that exist when the loop is over. *)
Definition handle_pair (fs : gset string) (caption : option string)
    (render : nat → render_result) (img_path aud_path : string)
    : bool * gset string :=
  let '(video_success, srt_file, _) := process_pair caption render in
  (video_success, final_cleanup fs srt_file video_success img_path aud_path).

Lemma final_cleanup_sources fs srt_file ok img_path aud_path :
  img_path ∈ fs → aud_path ∈ fs →
  srt_file ≠ Some img_path → srt_file ≠ Some aud_path →
  let fs' := final_cleanup fs srt_file ok img_path aud_path in
  (img_path ∈ fs' ↔ ok = false) ∧ (aud_path ∈ fs' ↔ ok = false).
Proof.
  intros Hi Ha Hsi Hsa. cbv zeta. unfold final_cleanup, os_remove.
  set (fs1 := match srt_file with
              | Some p => if decide (p ∈ fs) then fs ∖ {[p]} else fs
              | None => fs
              end).
  assert (∀ q, q ∈ fs1 ↔ (q ∈ fs ∧ srt_file ≠ Some q)) as Hfs1.
  { intros q. subst fs1. destruct srt_file as [p|]; [|set_solver].
    destruct (decide (p ∈ fs)); set_solver. }
  assert (aud_path ∈ fs1) as Ha1 by by apply Hfs1.
  assert (img_path ∈ fs1) as Hi1 by by apply Hfs1.
  destruct ok; [|by split].
  rewrite decide_True by done. simpl.
  destruct (decide (img_path ∈ fs1 ∖ {[aud_path]})) as [Hin|Hout]; simpl.
  - rewrite !elem_of_difference, !elem_of_singleton. split; split; try done.
    + by intros [_ ?].
    + by intros [[_ ?] _].
  - assert (img_path = aud_path) as Heq.
    { destruct (decide (img_path = aud_path)) as [|Hne]; [done|].
      exfalso. apply Hout. by rewrite elem_of_difference, elem_of_singleton. }
    rewrite Heq, !elem_of_difference, !elem_of_singleton.
    split; split; try done; by intros [_ ?].
Qed.

(** X19.  The sources of a pair are consumed exactly when a video was
    made.  For a pair whose two source files exist and whose caption path
    is a third file, after the loop and the cleanup the image and the audio
    are both gone if the captions were generated and one of the three
    render attempts returned [True], and both still there otherwise; the
    caption file is gone either way. *)
Theorem handle_pair_consumes_on_success (fs : gset string)
    (caption : option string) (render : nat → render_result)
    (img_path aud_path : string) :
  img_path ∈ fs → aud_path ∈ fs →
  caption ≠ Some img_path → caption ≠ Some aud_path →
  let res := handle_pair fs caption render img_path aud_path in
  let made :=
    is_Some caption ∧
    (render 1%nat = Finished true ∨ render 2%nat = Finished true
     ∨ render 3%nat = Finished true) in
  (res.1 = true ↔ made) ∧
  (img_path ∉ res.2 ↔ made) ∧ (aud_path ∉ res.2 ↔ made) ∧
  (∀ p, caption = Some p → p ∉ res.2).
Proof.
  intros Hi Ha Hsi Hsa. cbv zeta. unfold handle_pair.
  assert (∀ ok, let fs' := final_cleanup fs caption ok img_path aud_path in
            ((img_path ∉ fs') ↔ ok = true) ∧ ((aud_path ∉ fs') ↔ ok = true) ∧
            (∀ p, caption = Some p → p ∉ fs')) as Hclean.
  { intros ok. cbv zeta.
    destruct (final_cleanup_sources fs caption ok img_path aud_path
                Hi Ha Hsi Hsa) as [H1 H2].
    split; [rewrite H1; by destruct ok|]. split; [rewrite H2; by destruct ok|].
    intros p ->. unfold final_cleanup, os_remove.
    assert (p ∉ (if decide (p ∈ fs) then fs ∖ {[p]} else fs)) as Hp
      by (destruct (decide (p ∈ fs)); set_solver).
    destruct ok; [|done].
    destruct (decide (aud_path ∈ _)); simpl; [|done].
    destruct (decide (img_path ∈ _)); simpl; set_solver. }
  assert ((process_pair caption render).1.2 = caption ∧
          ((process_pair caption render).1.1 = true ↔
           is_Some caption ∧
           (render 1%nat = Finished true ∨ render 2%nat = Finished true
            ∨ render 3%nat = Finished true))) as [Hsrt Hok].
  { unfold process_pair, MAX_EDIT_RETRIES. destruct caption as [p|]; simpl.
    2:{ split; [done|]. split; [done|]. by intros [[? ?] _]. }
    destruct (render 1%nat) as [[|]|] eqn:H1;
      destruct (render 2%nat) as [[|]|] eqn:H2;
      destruct (render 3%nat) as [[|]|] eqn:H3;
      simpl; (split; [done|]); split; try done;
      try (intros _; split; [by eexists|]; auto);
      intros [_ [?|[?|?]]]; done. }
  destruct (process_pair caption render) as [[ok srt] steps].
  simpl in *. subst srt. specialize (Hclean ok). cbv zeta in Hclean.
  destruct Hclean as (Himg & Haud & Hcap).
  split; [done|]. split; [by rewrite Himg|]. split; [by rewrite Haud|done].
Qed.

Lemma handle_pair_consumes_on_success_witness :
  "images/a.png" ∈ pair_files ∧ "audio/a.mp3" ∈ pair_files ∧
  Some "audio/a.srt" ≠ Some "images/a.png" ∧
  Some "audio/a.srt" ≠ Some "audio/a.mp3" ∧
  (handle_pair pair_files (Some "audio/a.srt") third_time_lucky
     "images/a.png" "audio/a.mp3").1 = true.
Proof.
  assert ("images/a.png" ∈ pair_files) as Hi by compute_done.
  assert ("audio/a.mp3" ∈ pair_files) as Ha by compute_done.
  assert (Some "audio/a.srt" ≠ Some "images/a.png") as Hsi by discriminate.
  assert (Some "audio/a.srt" ≠ Some "audio/a.mp3") as Hsa by discriminate.
  split; [exact Hi|]. split; [exact Ha|].
  split; [exact Hsi|]. split; [exact Hsa|].
  refine (proj2 (proj1
    (handle_pair_consumes_on_success pair_files (Some "audio/a.srt")
       third_time_lucky "images/a.png" "audio/a.mp3" Hi Ha Hsi Hsa)) _).
  split; [by eexists|]. right. right. reflexivity.
Defined.

(* ================================================================== *)
(** * The sticker over a whole video *)
(* ================================================================== *)

Lemma sticker_outside_window ALL_GIFS r io f frame_idx fps video_id st :
  0 < fps → ¬ (fps ≤ frame_idx ≤ 6 * fps) →
  (apply_effect_frame ALL_GIFS r io f frame_idx fps video_id st).1 = Returned f.
Proof.
  intros Hfps Hout.
  destruct (apply_effect_frame_cases ALL_GIFS r io f frame_idx fps video_id st)
    as [_ Hres]; [lia|].
  destruct (gif_idx frame_idx fps _) as [i|] eqn:Hi; [|done].
  exfalso. apply Hout. eapply gif_idx_window; [done|]. by eexists.
Qed.

Lemma write_frames_sticker_window ALL_GIFS r io enc img fps video_id
    audio_name idxs st :
  0 < fps →
  Forall (fun e => ∀ i fr, e = EvWrite i fr →
                           ¬ (fps ≤ Z.of_nat i ≤ 6 * fps) → fr = img)
    (write_frames [sticker_effect ALL_GIFS r io] enc img fps video_id
       audio_name idxs st).2.
Proof.
  intros Hfps. revert st. induction idxs as [|i idxs IH]; intros st.
  { constructor. }
  cbn [write_frames]. unfold render_frame. cbn [apply_effects].
  unfold sticker_effect at 1. cbn [ctx_frame_idx ctx_fps ctx_video_id].
  pose proof (sticker_outside_window ALL_GIFS r io img (Z.of_nat i) fps
                video_id st Hfps) as Hout.
  destruct (apply_effect_frame ALL_GIFS r io img (Z.of_nat i) fps video_id st)
    as [[out|buf] st1]; simpl in Hout; simpl.
  - destruct (write_ok enc i); [|constructor].
    specialize (IH st1).
    destruct (write_frames _ enc img fps video_id audio_name idxs st1)
      as [[ok s2] evs].
    simpl in *. constructor; [|done].
    intros j fr [= <- <-] Hj. specialize (Hout Hj). by injection Hout.
  - destruct (write_ok enc i); [|constructor].
    specialize (IH st1).
    destruct (write_frames _ enc img fps video_id audio_name idxs st1)
      as [[ok s2] evs].
    simpl in *. constructor; [|done].
    intros j fr [= <- <-] Hj. specialize (Hout Hj). done.
Qed.

(** The frames [create_video] writes are the frames its loop writes. *)
Lemma create_video_writes {St} (effects : list (effect St)) enc base audio
    captions fps video_id audio_name s i fr :
  EvWrite i fr ∈
    (create_video effects enc (Some base) audio captions fps video_id
       audio_name s).2 →
  ∃ d, audio = Duration d ∧
       EvWrite i fr ∈
         (write_frames effects enc base fps video_id audio_name
            (seq 0 (Z.to_nat (total_frames d fps))) s).2.
Proof.
  unfold create_video.
  destruct audio as [|d]; [by intros ?%elem_of_nil|].
  destruct (total_frames d fps <=? 0); [by intros ?%elem_of_nil|].
  destruct (spawn_ok enc); simpl.
  2:{ intros [?|?%elem_of_nil]%elem_of_cons; done. }
  intros Hin. exists d. split; [done|].
  destruct (write_frames effects enc base fps video_id audio_name _ s)
    as [[ok s1] evs].
  simpl.
  assert (∀ tl : list event,
            (∀ e, e ∈ tl → ∀ j g, e ≠ EvWrite j g) →
            EvWrite i fr ∈ EvSpawn captions :: evs ++ tl →
            EvWrite i fr ∈ evs) as Hcut.
  { intros tl Htl [?|[?|Hl]%elem_of_app]%elem_of_cons; [done|done|].
    by destruct (Htl _ Hl i fr). }
  assert (∀ tl : list event, tl = [EvKill] ∨ tl = [EvClose; EvKill]
            ∨ tl = [EvClose; EvWait] ∨ tl = [EvClose; EvWait; EvKill] →
            ∀ e, e ∈ tl → ∀ j g, e ≠ EvWrite j g) as Htails.
  { intros tl Htl e He j g ->.
    destruct Htl as [ -> | [ -> | [ -> | -> ] ] ];
      repeat (apply elem_of_cons in He as [?|He]; [done|]);
      by apply elem_of_nil in He. }
  destruct ok; simpl in Hin.
  2:{ eapply Hcut; [|exact Hin]. apply Htails. by left. }
  destruct (close_ok enc); simpl in Hin.
  2:{ eapply Hcut; [|exact Hin]. apply Htails. right. by left. }
  destruct (wait_result enc) as [rc|]; [destruct (rc =? 0)|]; simpl in Hin;
    (eapply Hcut; [|exact Hin]; apply Htails); auto.
Qed.

(** X20.  Over a whole video the sticker shows only between second one
    and second six: with the sticker plugin as the only effect and a
    positive frame rate, every frame written with an index below [fps] or
    above [6 fps] is the base image, bit for bit. *)
Theorem create_video_sticker_window (ALL_GIFS : gmap string gif) (r : nat)
    (io : save_result) (enc : encoder) (base : frame) (audio : probe)
    (captions : bool) (fps : Z) (video_id audio_name : string) (st : ledger)
    (i : nat) (fr : frame) :
  0 < fps →
  EvWrite i fr ∈
    (create_video [sticker_effect ALL_GIFS r io] enc (Some base) audio
       captions fps video_id audio_name st).2 →
  ¬ (fps ≤ Z.of_nat i ≤ 6 * fps) →
  fr = base.
Proof.
  intros Hfps Hin Hout.
  apply create_video_writes in Hin as (d & _ & Hin).
  pose proof (write_frames_sticker_window ALL_GIFS r io enc base fps video_id
                audio_name (seq 0 (Z.to_nat (total_frames d fps))) st Hfps)
    as Hall.
  rewrite Forall_forall in Hall. by apply (Hall _ Hin i fr).
Qed.

Lemma create_video_sticker_window_witness :
  0 < 10 ∧
  EvWrite 0 black13 ∈
    (create_video [sticker_effect one_gif 0 Written] good_encoder
       (Some black13) (Duration (1 # 10)) true 10 "video_1.mp4" "song"
       (restart Missing)).2 ∧
  ¬ (10 ≤ Z.of_nat 0 ≤ 6 * 10) ∧
  black13 = black13.
Proof.
  assert (0 < 10) as Hfps by lia.
  assert (EvWrite 0 black13 ∈
    (create_video [sticker_effect one_gif 0 Written] good_encoder
       (Some black13) (Duration (1 # 10)) true 10 "video_1.mp4" "song"
       (restart Missing)).2) as Hin.
  { vm_compute. right. left. }
  assert (¬ (10 ≤ Z.of_nat 0 ≤ 6 * 10)) as Hout by (simpl; lia).
  split; [exact Hfps|]. split; [exact Hin|]. split; [exact Hout|].
  exact (create_video_sticker_window one_gif 0 Written good_encoder black13
           (Duration (1 # 10)) true 10 "video_1.mp4" "song" (restart Missing)
           0 black13 Hfps Hin Hout).
Defined.
